(** * Pascal simplices and their hyperplane sums

    A shallow embedding of the notebook
    [Generalizing_Formula_for_Pascal's_Simplex_Hyperplane_Sums.ipynb]:
    [createPascalSimplex], [calculate_sum_nested_list],
    [calculateHypersumsInPascalSimplex], [calculateSequence] and
    [validateFormula], followed by the properties of these functions.

    Python integers are modelled by [Z], Python lists by [list]; a list
    that is mutated through several references lives in an explicit heap.
    Exceptions are results of the [outcome] monad. *)

From Stdlib Require Import ZArith List Lia String.
From stdpp Require Import base tactics numbers option list.

Local Open Scope Z_scope.

(** ** Python values, exceptions, and sequence primitives *)

Module Py.

(** Exceptions the modelled code can raise. *)
Inductive exn : Type :=
| ValueError (msg : string)
| IndexError
| ZeroDivisionError.

(** Result of running a piece of Python code.  [OutOfFuel] is not a Python
    result: it says that a loop was still running when the iteration budget
    of the embedding ended. *)
Inductive outcome (A : Type) : Type :=
| Ok (a : A)
| Raise (e : exn)
| OutOfFuel.
Global Arguments Ok {A} a.
Global Arguments Raise {A} e.
Global Arguments OutOfFuel {A}.

Global Instance outcome_ret : MRet outcome := @Ok.
Global Instance outcome_bind : MBind outcome := fun A B f m =>
  match m with
  | Ok a => f a
  | Raise e => Raise e
  | OutOfFuel => OutOfFuel
  end.

(** [for x in xs: s = body(x, s)] with exceptions leaving the loop. *)
Fixpoint for_each {X S : Type} (xs : list X) (body : X -> S -> outcome S)
    (s : S) : outcome S :=
  match xs with
  | [] => Ok s
  | x :: xs' => s' ← body x s; for_each xs' body s'
  end.

(** [range(a, b)], [range(n)] and [reversed(range(n))]. *)
Definition range2 (a b : Z) : list Z := seqZ a (b - a).
Definition range (n : Z) : list Z := range2 0 n.
Definition reversed_range (n : Z) : list Z := rev (range n).

(** [len(l)]. *)
Definition len {A : Type} (l : list A) : Z := Z.of_nat (length l).

(** [l[i]]: a negative index counts from the end, anything outside
    [-len(l) <= i < len(l)] raises [IndexError]. *)
Definition getitem {A : Type} (l : list A) (i : Z) : outcome A :=
  let j := if i <? 0 then len l + i else i in
  if j <? 0 then Raise IndexError
  else match l !! Z.to_nat j with
       | Some a => Ok a
       | None => Raise IndexError
       end.

(** [l[i] = v], same index rules. *)
Definition setitem {A : Type} (l : list A) (i : Z) (v : A) : outcome (list A) :=
  let j := if i <? 0 then len l + i else i in
  if (j <? 0) || (len l <=? j) then Raise IndexError
  else Ok (<[Z.to_nat j := v]> l).

(** [a // b] on integers. *)
Definition floordiv (a b : Z) : outcome Z :=
  if b =? 0 then Raise ZeroDivisionError else Ok (a / b).

(** A nested list of integers as the notebook's functions see it:
    [isinstance(v, int)] or [isinstance(v, list)]. *)
#[warnings="-register-all"] Inductive value : Type :=
| VInt (z : Z)
| VList (l : list value).

End Py.
Import Py.

(** ** [createPascalSimplex] *)

(** The lists built by [generate_layer] are filled through references kept on
    the work stack, after they have been appended to their parent.  The heap
    maps an address (a position) to the current content of a list object; an
    element of a list is an integer or the address of another list. *)
Inductive item : Type :=
| Int (z : Z)
| Ref (a : nat).

Abbreviation heap := (list (list item)).

(** [new_sublist = []]: the new object gets the next free address. *)
Definition alloc (h : heap) : heap * nat := (h ++ [[]], length h).

(** [sub.append(it)] for the list object at address [a]. *)
Definition append (h : heap) (a : nat) (it : item) : heap :=
  alter (fun l => l ++ [it]) a h.

(** Stack elements:
    [(current_sublist, current_depth, remaining_sum, product_of_factorials)]. *)
Record frame : Type := Frame {
  current_sublist : nat;
  depth : Z;
  remaining : Z;
  fact_prod : Z
}.

(** The immutable nested list denoted by the elements [its] in heap [h].
    [n] bounds the nesting depth that is followed; a dangling address or a
    nesting deeper than [n] gives [None]. *)
Fixpoint readback (n : nat) (h : heap) (its : list item) : option (list value) :=
  match n with
  | O => None
  | S n' =>
      mapM (fun it =>
              match it with
              | Int z => Some (VInt z)
              | Ref a => l ← h !! a; VList <$> readback n' h l
              end) its
  end.

Section generate_layer.

(** The variables that the closure [generate_layer] captures or receives:
    the factorial table, the layer index and the dimension. *)
Variable fact : list Z.
Variable x : Z.
Variable dim : Z.

(** Body of the loop over [k] in the penultimate dimension. *)
Definition penultimate_body (fr : frame) (k : Z) (h : heap) : outcome heap :=
  let k_last := remaining fr - k in
  f_k ← getitem fact k;
  f_last ← getitem fact k_last;
  let denominator := fact_prod fr * f_k * f_last in
  f_x ← getitem fact x;
  coeff ← floordiv f_x denominator;
  Ok (append h (current_sublist fr) (Int coeff)).

(** Body of the loop over [k] in an intermediate dimension. *)
Definition intermediate_body (fr : frame) (k : Z) (st : heap * list frame)
    : outcome (heap * list frame) :=
  let '(h, stack) := st in
  let new_remaining := remaining fr - k in
  f_k ← getitem fact k;
  let new_fact_prod := fact_prod fr * f_k in
  let '(h, new_sublist) := alloc h in
  let h := append h (current_sublist fr) (Ref new_sublist) in
  Ok (h, Frame new_sublist (depth fr + 1) new_remaining new_fact_prod :: stack).

(** One iteration of [while stack:], after [stack.pop()] returned [fr] and
    left [stack].  The Python stack is a list used at its end; here the
    head of [stack] is that end. *)
Definition loop_body (fr : frame) (st : heap * list frame)
    : outcome (heap * list frame) :=
  let '(h, stack) := st in
  if depth fr =? dim - 1 then
    f_x ← getitem fact x;
    f_r ← getitem fact (remaining fr);
    coeff ← floordiv f_x (fact_prod fr * f_r);
    Ok (append h (current_sublist fr) (Int coeff), stack)
  else if depth fr + 1 =? dim - 1 then
    h' ← for_each (reversed_range (remaining fr + 1)) (penultimate_body fr) h;
    Ok (h', stack)
  else
    for_each (reversed_range (remaining fr + 1)) (intermediate_body fr) (h, stack).

(** [while stack: ...] with an iteration budget. *)
Fixpoint while_stack (fuel : nat) (st : heap * list frame) : outcome heap :=
  match st with
  | (h, []) => Ok h
  | (h, fr :: stack) =>
      match fuel with
      | O => OutOfFuel
      | S fuel' => st' ← loop_body fr (h, stack); while_stack fuel' st'
      end
  end.

(** [generate_layer(x, dim)]: [layer] is the object at address 0. *)
Definition generate_layer (fuel : nat) : outcome (list value) :=
  let layer := 0%nat in
  let h : heap := [[]] in
  let stack := [Frame layer 0 x 1] in
  h' ← while_stack fuel (h, stack);
  match (l ← h' !! layer; readback (length h') h' l) with
  | Some v => Ok v
  | None => OutOfFuel
  end.

End generate_layer.

(** Number of iterations of [while stack:] caused by one stack element with
    remaining sum [r] whose sublist has [n] levels of lists below it; it is
    the iteration budget given to [generate_layer]. *)
Fixpoint iterations (n r : nat) : nat :=
  match n with
  | O => 1
  | S n' => S (sum_list ((fun k => iterations n' (r - k)) <$> seq 0 (S r)))
  end.

(** [fact = [1] * layers; for i in range(1, layers): fact[i] = fact[i-1] * i]. *)
Definition precompute_factorials (layers : Z) : outcome (list Z) :=
  let fact := replicate (Z.to_nat layers) 1 in
  for_each (range2 1 layers)
    (fun i fact => f ← getitem fact (i - 1); setitem fact i (f * i)) fact.

Definition createPascalSimplex (layers dimension : Z) : outcome (list value) :=
  if dimension <? 1 then Raise (ValueError "Dimension must be at least 1.")
  else if layers =? 0 then Ok []
  else if dimension =? 1 then Ok (replicate (Z.to_nat layers) (VInt 1))
  else
    fact ← precompute_factorials layers;
    for_each (range layers)
      (fun x simplex =>
         layer ← generate_layer fact x dimension
                   (iterations (Z.to_nat (dimension - 2)) (Z.to_nat x));
         Ok (simplex ++ [VList layer]))
      [].

(** ** [calculate_sum_nested_list] *)

(** The recursion descends through the elements of a list, so it is stated
    on an element: [element_sum element] is what the statement
    [total_sum += ...] of the loop adds for [element], an integer itself or
    the recursive sum of a list.  [calculate_sum_nested_list_eq] below
    gives the loop of the source as an equation. *)
Fixpoint element_sum (element : value) : Z :=
  match element with
  | VInt z => z
  | VList nested_list =>
      (fix loop (elements : list value) (total_sum : Z) {struct elements} : Z :=
         match elements with
         | [] => total_sum
         | element :: elements' => loop elements' (total_sum + element_sum element)
         end) nested_list 0
  end.

Definition calculate_sum_nested_list (nested_list : list value) : Z :=
  element_sum (VList nested_list).

(** ** [calculateHypersumsInPascalSimplex] *)

(** The three ways out of the [while True:] loop of one layer. *)
Inductive loop_exit : Type :=
| NegativeIndex      (* [if idx < 0: break] *)
| IndexOutOfRange    (* [except IndexError: break] *)
| BareScalar.        (* [elif isinstance(value, int): ... break] *)

(** The [while True:] loop of layer [layer], entered with the step counter
    [i] and the accumulator [plain_sum]; it returns the accumulator together
    with the exit that was taken. *)
Fixpoint hyperplane_walk (fuel : nat) (simplex : list value) (m layer i plain_sum : Z)
    : outcome (Z * loop_exit) :=
  match fuel with
  | O => OutOfFuel
  | S fuel' =>
      let idx := layer - i * m in
      if idx <? 0 then Ok (plain_sum, NegativeIndex)
      else
        match getitem simplex idx with
        | Raise IndexError => Ok (plain_sum, IndexOutOfRange)
        | Raise e => Raise e
        | OutOfFuel => OutOfFuel
        | Ok (VList value) =>
            plain_sum' ←
              (if i <? len value then
                 sub_value ← getitem value i;
                 match sub_value with
                 | VInt z => Ok (plain_sum + z)
                 | VList l => Ok (plain_sum + calculate_sum_nested_list l)
                 end
               else Ok plain_sum);
            hyperplane_walk fuel' simplex m layer (i + 1) plain_sum'
        | Ok (VInt _) => Ok (1, BareScalar)
        end
  end.

(** [fuel] is the iteration budget of each layer's [while True:] loop. *)
Definition calculateHypersumsInPascalSimplex (fuel : nat) (simplex : list value) (m : Z)
    : outcome (list Z) :=
  for_each (range (len simplex))
    (fun layer res =>
       r ← hyperplane_walk fuel simplex m layer 0 0;
       Ok (res ++ [r.1]))
    [].

(** ** [calculateSequence] *)

Definition calculateSequence (dimension m k : Z) : outcome (list Z) :=
  res ← for_each (range (Z.min k (m + 1))) (fun i res => Ok (res ++ [1])) [];
  for_each (range2 (m + 1) k)
    (fun i res =>
       a ← getitem res (i - 1);
       b ← getitem res (i - (m + 1));
       let value := a + (dimension - 1) * b in
       Ok (res ++ [value]))
    res.

(** ** [validateFormula] *)

(** What [validateFormula] prints for a mismatch: the parameters and the two
    sequences. *)
Record mismatch : Type := Mismatch {
  mm_d : Z; mm_m : Z; mm_k : Z;
  mm_hypersums : list Z; mm_sequence : list Z
}.

(** The result is [all_okay] together with the printed mismatches; [fuel] is
    passed to [calculateHypersumsInPascalSimplex]. *)
Definition validateFormula (fuel : nat) (maxD maxM maxK : Z)
    : outcome (bool * list mismatch) :=
  for_each (range2 1 maxD)
    (fun d st =>
       for_each (range2 1 maxM)
         (fun m st =>
            for_each (range2 1 maxK)
              (fun k st =>
                 simplex ← createPascalSimplex k d;
                 hypersums ← calculateHypersumsInPascalSimplex fuel simplex m;
                 sequence ← calculateSequence d m k;
                 if bool_decide (hypersums ≠ sequence)
                 then Ok (false, st.2 ++ [Mismatch d m k hypersums sequence])
                 else Ok st)
              st)
         st)
    (true, []).

(** * Definitions used to state the properties *)

(** ** Factorials, binomial coefficients and finite sums *)

Fixpoint factorial (n : nat) : Z :=
  match n with
  | O => 1
  | S n' => factorial n' * Z.of_nat n
  end.

(** Pascal's rule as a definition; [choose n k = 0] when [n < k]. *)
Fixpoint choose (n k : nat) {struct n} : Z :=
  match k with
  | O => 1
  | S k' =>
      match n with
      | O => 0
      | S n' => choose n' k' + choose n' k
      end
  end.

(** [zsum f n] is [f 0 + ... + f (n - 1)]. *)
Fixpoint zsum (f : nat -> Z) (n : nat) : Z :=
  match n with
  | O => 0
  | S n' => zsum f n' + f n'
  end.

(** [k_1! * ... * k_j!], multiplied onto [p] from the left as the code does. *)
Definition factorial_product (p : Z) (ks : list nat) : Z :=
  fold_left (fun p k => p * factorial k) ks p.

(** ** The recursive counterpart of [generate_layer] *)

(** What the stack loop puts into the sublist of a stack element with
    remaining sum [r] and factorial product [fp] that has [n] levels of lists
    below it, in layer [x]: the direct recursion over the parts [k]. *)
Fixpoint content (x n r : nat) (fp : Z) : list value :=
  match n with
  | O =>
      (fun k => VInt (factorial x / (fp * factorial k * factorial (r - k))))
        <$> rev (seq 0 (S r))
  | S n' =>
      (fun k => VList (content x n' (r - k) (fp * factorial k)))
        <$> rev (seq 0 (S r))
  end.

(** [repr lo h n its vs]: in heap [h] the elements [its] denote the values
    [vs], through at most [n] levels of references, all of them to addresses
    from [lo] on. *)
Fixpoint repr (lo : nat) (h : heap) (n : nat) (its : list item) (vs : list value) : Prop :=
  Forall2 (fun it v =>
             match it, v with
             | Int z, VInt z' => z = z'
             | Ref a, VList vl =>
                 match n with
                 | O => False
                 | S n' => (lo <= a)%nat /\ exists l, h !! a = Some l /\ repr lo h n' l vl
                 end
             | _, _ => False
             end) its vs.

(** The frame pushed for the part [k] by the [m] iterations of an
    intermediate loop that started with a heap of [L] objects. *)
Definition pushed (L m : nat) (dp r : nat) (fp : Z) (k : nat) : frame :=
  Frame (L + (m - 1 - k)) (Z.of_nat (S dp)) (Z.of_nat (r - k)) (fp * factorial k).

(** What running the loop of [generate_layer(x, dim)] on one stack element
    achieves, with the factorial table of [N] layers: after
    [iterations n r] iterations the element is gone, its sublist holds
    [content x n r fp], and no other object that existed has changed. *)
Definition frame_ok (N x : nat) (dim : Z) (n : nat) : Prop :=
  forall h a dp r fp stack,
    Z.of_nat dp + Z.of_nat n + 2 = dim ->
    (r <= x)%nat -> fp <> 0 -> h !! a = Some [] ->
    exists h',
      (forall fuel,
          while_stack (factorial <$> seq 0 N) (Z.of_nat x) dim (iterations n r + fuel)
            (h, Frame a (Z.of_nat dp) (Z.of_nat r) fp :: stack)
          = while_stack (factorial <$> seq 0 N) (Z.of_nat x) dim fuel (h', stack))
      /\ (length h + n <= length h')%nat
      /\ (forall b, b <> a -> (b < length h)%nat -> h' !! b = h !! b)
      /\ exists its, h' !! a = Some its /\ repr (length h) h' n its (content x n r fp).

(** Layer [x] of a simplex of dimension [dimension >= 1]. *)
Definition simplex_layer (dimension : Z) (x : nat) : value :=
  if dimension =? 1 then VInt 1
  else VList (content x (Z.to_nat (dimension - 2)) x 1).

(** ** The closed form of the hyperplane sums *)

(** The contribution of step [i] to the sum of layer [L]: the sublist [i] of
    layer [L - i * m] sums to [choose (L - i * m) i * c ^ i], where
    [c = dimension - 1]; steps beyond the walk contribute [0]. *)
Definition hterm (c : Z) (m L i : nat) : Z :=
  choose (L - i * m) i * c ^ Z.of_nat i.

Definition hypersum (c : Z) (m L : nat) : Z := zsum (hterm c m L) (S L).

(** ** Multi-indices *)

(** [v[p_1][p_2]...]: the value at a path of list positions. *)
Fixpoint lookup_path (v : value) (path : list nat) : option value :=
  match path with
  | [] => Some v
  | p :: path' =>
      match v with
      | VList l => element ← l !! p; lookup_path element path'
      | VInt _ => None
      end
  end.

(** The path of the multi-index [ks] in a sublist with remaining sum [r]:
    each level lists its parts in descending order, so the part [k] is at
    position [r - k], and the sum that remains below it is [r - k]. *)
Fixpoint positions (r : nat) (ks : list nat) : list nat :=
  match ks with
  | [] => []
  | k :: ks' => (r - k)%nat :: positions (r - k) ks'
  end.

(** ** The states of the stack loop *)

(** The states in which [while stack:] tests its condition during
    [generate_layer(x, dim)]: the initial one, and the one after each
    iteration that popped [fr] and finished without an exception. *)
Inductive reachable (fact : list Z) (x dim : Z) : heap * list frame -> Prop :=
| reachable_start : reachable fact x dim ([[]], [Frame 0 0 x 1])
| reachable_step h fr stack st' :
    reachable fact x dim (h, fr :: stack) ->
    loop_body fact x dim fr (h, stack) = Ok st' ->
    reachable fact x dim st'.

(** The state after the first [n] iterations of [while stack:], or after the
    last one when the stack is empty before that. *)
Fixpoint iterate_loop (fact : list Z) (x dim : Z) (n : nat) (st : heap * list frame)
    : outcome (heap * list frame) :=
  match n, st with
  | O, _ => Ok st
  | S _, (_, []) => Ok st
  | S n', (h, fr :: stack) =>
      st' ← loop_body fact x dim fr (h, stack); iterate_loop fact x dim n' st'
  end.

(** What holds of every element on the stack of [generate_layer(x, dim)]:
    its factorial product is the product of the factorials of the parts
    chosen above it, these parts and the remaining sum add up to [x], and it
    is at most at the penultimate depth. *)
Definition frame_inv (x : nat) (dim : Z) (fr : frame) : Prop :=
  exists (parts : list nat) (r : nat),
    remaining fr = Z.of_nat r
    /\ fact_prod fr = factorial_product 1 parts
    /\ (sum_list parts + r)%nat = x
    /\ depth fr = Z.of_nat (length parts)
    /\ depth fr + 2 <= dim.

(** * The earlier notebook

    The second notebook of the repository holds an earlier version of the
    same functions: [createPascalSimplex] recurses directly and lists the
    parts in ascending order, [calculateHypersumsInPascalSimplex] counts its
    steps with [calculateNumberOfPlainElements], and [calculateSequence]
    uses the recurrence [x_n = (d-1) x_{n-1} + x_{n-(m+1)}].
    [calculate_sum_nested_list] is the same text in both notebooks. *)

Module Earlier.

(** [math.factorial(k)]: defined for [k >= 0] only. *)
Definition math_factorial (k : Z) : outcome Z :=
  if k <? 0 then Raise (ValueError "factorial() not defined for negative values")
  else Ok (factorial (Z.to_nat k)).

(** [recurse(k_list, remaining)] inside [generate_layer(x, dim)].  [fuel]
    bounds the depth of the recursion. *)
Fixpoint recurse (x dim : Z) (fuel : nat) (k_list : list Z) (remaining : Z)
    : outcome value :=
  match fuel with
  | O => OutOfFuel
  | S fuel' =>
      let current_depth := len k_list in
      if current_depth =? dim - 1 then
        let k_last := remaining in
        let all_ks := k_list ++ [k_last] in
        denominator ←
          for_each all_ks
            (fun k denominator => f ← math_factorial k; Ok (denominator * f)) 1;
        f_x ← math_factorial x;
        q ← floordiv f_x denominator;
        Ok (VInt q)
      else
        sub ←
          for_each (range (remaining + 1))
            (fun k sub =>
               v ← recurse x dim fuel' (k_list ++ [k]) (remaining - k);
               Ok (sub ++ [v]))
            [];
        Ok (VList sub)
  end.

(** The recursion is [dim] calls deep, which is the budget it gets. *)
Definition generate_layer (x dim : Z) : outcome value :=
  if dim =? 0 then Ok (VList [])
  else recurse x dim (Z.to_nat dim) [] x.

Definition createPascalSimplex (layers dimension : Z) : outcome (list value) :=
  if dimension <? 1
  then Raise (ValueError "The dimension of a Pascal Simplex must be at least 1.")
  else
    for_each (range layers)
      (fun x simplex => layer ← generate_layer x dimension; Ok (simplex ++ [layer]))
      [].

Definition calculateNumberOfPlainElements (layer m : Z) : outcome Z :=
  if layer =? 0 then Ok 1
  else
    st ← for_each (range2 0 layer)
           (fun i (st : Z * list Z) =>
              let c := st.1 + 1 in
              seq ← for_each (range2 0 m) (fun j seq => Ok (seq ++ [c])) st.2;
              Ok (c, seq))
           (0, []);
    getitem st.2 layer.

Definition calculateHypersumsInPascalSimplex (simplex : list value) (m : Z)
    : outcome (list Z) :=
  for_each (range (len simplex))
    (fun layer res =>
       let plainSum := 0 in
       elements ← calculateNumberOfPlainElements layer (m + 1);
       plainSum ←
         for_each (range elements)
           (fun i plainSum =>
              value ← getitem simplex (layer - i * m);
              match value with
              | VInt _ => Ok 1
              | VList value =>
                  value_i ← getitem value i;
                  match value_i with
                  | VInt z => Ok (plainSum + z)
                  | VList l => Ok (plainSum + calculate_sum_nested_list l)
                  end
              end)
           plainSum;
       Ok (res ++ [plainSum]))
    [].

Definition calculateSequence (dimension m k : Z) : outcome (list Z) :=
  if dimension =? 1 then Ok (replicate (Z.to_nat k) 1)
  else
    res ← for_each (range (Z.min k (m + 1)))
            (fun i res => Ok (res ++ [(dimension - 1) ^ i])) [];
    for_each (range2 (m + 1) k)
      (fun i res =>
         a ← getitem res (i - 1);
         b ← getitem res (i - (m + 1));
         let value := (dimension - 1) * a + b in
         Ok (res ++ [value]))
      res.

Definition validateFormula (maxD maxM maxK : Z) : outcome (bool * list mismatch) :=
  for_each (range2 1 maxD)
    (fun d st =>
       for_each (range2 1 maxM)
         (fun m st =>
            for_each (range2 1 maxK)
              (fun k st =>
                 simplex ← createPascalSimplex k d;
                 hypersums ← calculateHypersumsInPascalSimplex simplex m;
                 sequence ← calculateSequence d m k;
                 if bool_decide (hypersums ≠ sequence)
                 then Ok (false, st.2 ++ [Mismatch d m k hypersums sequence])
                 else Ok st)
              st)
         st)
    (true, []).

End Earlier.

(** * Further definitions used to state properties *)

(** The number of scalars in a nested list. *)
Fixpoint scalar_count (v : value) : Z :=
  match v with
  | VInt _ => 1
  | VList l =>
      (fix count (elements : list value) : Z :=
         match elements with
         | [] => 0
         | element :: elements' => scalar_count element + count elements'
         end) l
  end.

(** The scalars of a nested list, from left to right. *)
Fixpoint scalars (v : value) : list Z :=
  match v with
  | VInt z => [z]
  | VList l =>
      (fix go (elements : list value) : list Z :=
         match elements with
         | [] => []
         | element :: elements' => scalars element ++ go elements'
         end) l
  end.

(** A nested list with every level reversed. *)
Fixpoint mirror (v : value) : value :=
  match v with
  | VInt z => VInt z
  | VList l =>
      VList ((fix go (elements : list value) (acc : list value) : list value :=
                match elements with
                | [] => acc
                | element :: elements' => go elements' (mirror element :: acc)
                end) l [])
  end.

(** The Fibonacci numbers [1, 1, 2, 3, 5, ...]. *)
Fixpoint fibonacci (n : nat) : Z :=
  match n with
  | O => 1
  | S n' =>
      match n' with
      | O => 1
      | S n'' => fibonacci n' + fibonacci n''
      end
  end.

(** What [Earlier.recurse] returns [n] levels above the scalars, for the
    parts [ks] chosen so far and the remaining sum [r]: the parts of each
    level in ascending order. *)
Fixpoint ascending (x n : nat) (ks : list nat) (r : nat) : value :=
  match n with
  | O => VInt (factorial x / factorial_product 1 (ks ++ [r]))
  | S n' => VList ((fun k => ascending x n' (ks ++ [k]) (r - k)%nat) <$> seq 0 (S r))
  end.

(** The closed form of the hyperplane sums of the earlier notebook. *)
Definition earlier_hterm (c : Z) (m L i : nat) : Z :=
  choose (L - i * m) i * c ^ Z.of_nat (L - i * (m + 1)).

Definition earlier_hypersum (c : Z) (m L : nat) : Z := zsum (earlier_hterm c m L) (S L).

(** * Properties *)

(** ** The outputs recorded in the notebook *)

Example pascal_triangle_rows :
  createPascalSimplex 5 2
  = Ok [VList [VInt 1]; VList [VInt 1; VInt 1]; VList [VInt 1; VInt 2; VInt 1];
        VList [VInt 1; VInt 3; VInt 3; VInt 1];
        VList [VInt 1; VInt 4; VInt 6; VInt 4; VInt 1]].
Proof. reflexivity. Qed.

Example pascal_tetrahedron_layer_4 :
  (simplex ← createPascalSimplex 10 3; getitem simplex 4)
  = Ok (VList [VList [VInt 1]; VList [VInt 4; VInt 4]; VList [VInt 6; VInt 12; VInt 6];
               VList [VInt 4; VInt 12; VInt 12; VInt 4];
               VList [VInt 1; VInt 4; VInt 6; VInt 4; VInt 1]]).
Proof. vm_compute. reflexivity. Qed.

Example one_dimensional_simplex :
  createPascalSimplex 10 1 = Ok (replicate 10 (VInt 1)).
Proof. reflexivity. Qed.

Example hypersums_triangle_slope_4 :
  (simplex ← createPascalSimplex 15 2; calculateHypersumsInPascalSimplex 16 simplex 4)
  = Ok [1; 1; 1; 1; 1; 2; 3; 4; 5; 6; 8; 11; 15; 20; 26].
Proof. vm_compute. reflexivity. Qed.

Example sequence_fibonacci :
  calculateSequence 2 1 15
  = Ok [1; 1; 2; 3; 5; 8; 13; 21; 34; 55; 89; 144; 233; 377; 610].
Proof. vm_compute. reflexivity. Qed.

Example sequence_jacobsthal :
  calculateSequence 3 1 15
  = Ok [1; 1; 3; 5; 11; 21; 43; 85; 171; 341; 683; 1365; 2731; 5461; 10923].
Proof. vm_compute. reflexivity. Qed.

Example sequence_narayana :
  calculateSequence 2 2 15
  = Ok [1; 1; 1; 2; 3; 4; 6; 9; 13; 19; 28; 41; 60; 88; 129].
Proof. vm_compute. reflexivity. Qed.

(** A slope below [-1] and a length of [0] leave the second loop with a
    negative index into the empty list. *)
Example sequence_negative_slope : calculateSequence 2 (-3) 0 = Raise IndexError.
Proof. reflexivity. Qed.

(** With slope [0] the loop of a layer that is a list never ends. *)
Example hypersums_slope_0_budget :
  (simplex ← createPascalSimplex 4 2; calculateHypersumsInPascalSimplex 1000 simplex 0)
  = OutOfFuel.
Proof. vm_compute. reflexivity. Qed.

(** ** The sequence primitives *)

Section primitives.
Context {A : Type}.
Implicit Types (l : list A) (n : nat).

Lemma getitem_nat l n a : l !! n = Some a -> getitem l (Z.of_nat n) = Ok a.
Proof.
  intros Hl. unfold getitem.
  destruct (Z.ltb_spec (Z.of_nat n) 0) as [?|_]; [lia|].
  destruct (Z.ltb_spec (Z.of_nat n) 0) as [?|_]; [lia|].
  by rewrite Nat2Z.id, Hl.
Qed.

Lemma getitem_in_range l i :
  0 <= i < len l -> exists a, l !! Z.to_nat i = Some a /\ getitem l i = Ok a.
Proof.
  intros [Hlo Hhi]. unfold len in Hhi.
  destruct (lookup_lt_is_Some_2 l (Z.to_nat i)) as [a Ha]; [lia|].
  exists a. split; [done|].
  rewrite <- (Z2Nat.id i) by done. by apply getitem_nat.
Qed.

Lemma getitem_out_of_range l i : len l <= i -> getitem l i = Raise IndexError.
Proof.
  intros Hi. unfold getitem, len in *.
  destruct (Z.ltb_spec i 0) as [?|_]; [lia|].
  destruct (Z.ltb_spec i 0) as [?|_]; [lia|].
  rewrite lookup_ge_None_2; [done|lia].
Qed.

(** [getitem] raises nothing but [IndexError]. *)
Lemma getitem_raise l i e : getitem l i = Raise e -> e = IndexError.
Proof.
  unfold getitem. intros H. repeat case_match; congruence.
Qed.

Lemma getitem_not_out_of_fuel l i : getitem l i <> OutOfFuel.
Proof. unfold getitem. repeat case_match; congruence. Qed.

Lemma setitem_nat l n v :
  (n < length l)%nat -> setitem l (Z.of_nat n) v = Ok (<[n := v]> l).
Proof.
  intros Hn. unfold setitem, len.
  destruct (Z.ltb_spec (Z.of_nat n) 0) as [?|_]; [lia|].
  destruct (Z.ltb_spec (Z.of_nat n) 0) as [?|_]; [lia|].
  destruct (Z.leb_spec (Z.of_nat (length l)) (Z.of_nat n)) as [?|_]; [lia|].
  by rewrite Nat2Z.id.
Qed.
End primitives.

Lemma range2_nat (a : Z) (n : nat) :
  range2 a (a + Z.of_nat n) = (fun j => a + Z.of_nat j) <$> seq 0 n.
Proof.
  unfold range2, seqZ. replace (a + Z.of_nat n - a) with (Z.of_nat n) by lia.
  rewrite Nat2Z.id. apply list_fmap_ext. intros; lia.
Qed.

Lemma range2_empty (a b : Z) : b <= a -> range2 a b = [].
Proof.
  intros Hab. unfold range2, seqZ. by replace (Z.to_nat (b - a)) with 0%nat by lia.
Qed.

Lemma range_nat (n : nat) : range (Z.of_nat n) = Z.of_nat <$> seq 0 n.
Proof. unfold range. apply (range2_nat 0 n). Qed.

Lemma range_nonpos (n : Z) : n <= 0 -> range n = [].
Proof. apply range2_empty. Qed.

Lemma elem_of_range2 (a b i : Z) : i ∈ range2 a b <-> a <= i < b.
Proof. unfold range2. rewrite elem_of_seqZ. lia. Qed.

Lemma reversed_range_nat (n : nat) :
  reversed_range (Z.of_nat n) = Z.of_nat <$> rev (seq 0 n).
Proof. unfold reversed_range. rewrite range_nat. symmetry. apply map_rev. Qed.

(** *** Loops *)

Section loops.
Context {X S : Type}.
Implicit Types (xs : list X) (body : X -> S -> outcome S).

Lemma for_each_app xs ys body s :
  for_each (xs ++ ys) body s = s' ← for_each xs body s; for_each ys body s'.
Proof.
  revert s. induction xs as [|x xs IH]; intros s; simpl; [done|].
  destruct (body x s) as [s'| |]; simpl; [apply IH|done..].
Qed.

(** The invariant rule: [I j s] holds of the state before the iteration
    on the [j]-th element. *)
Lemma for_each_invariant (I : nat -> S -> Prop) xs body s :
  I 0%nat s ->
  (forall j x s, xs !! j = Some x -> I j s ->
                 exists s', body x s = Ok s' /\ I (Datatypes.S j) s') ->
  exists s', for_each xs body s = Ok s' /\ I (length xs) s'.
Proof.
  revert I s. induction xs as [|x xs IH]; intros I s H0 Hstep; simpl.
  - by exists s.
  - destruct (Hstep 0%nat x s) as (s1 & -> & H1); [done..|]. simpl.
    apply (IH (fun j => I (Datatypes.S j))); [done|].
    intros j y t Hy Ht. by apply (Hstep (Datatypes.S j)).
Qed.

Lemma for_each_map {Y : Type} (f : Y -> X) (ys : list Y) body s :
  for_each (f <$> ys) body s = for_each ys (fun y => body (f y)) s.
Proof.
  revert s. induction ys as [|y ys IH]; intros s; simpl; [done|].
  destruct (body (f y) s); simpl; auto.
Qed.

(** A loop whose iterations all leave the state as it is. *)
Lemma for_each_unchanged xs body s :
  (forall x, x ∈ xs -> body x s = Ok s) -> for_each xs body s = Ok s.
Proof.
  induction xs as [|x xs IH]; intros Hb; simpl; [done|].
  rewrite Hb by left. simpl. apply IH. intros y Hy. apply Hb. by right.
Qed.
End loops.

(** ** Factorials, binomial coefficients and finite sums *)

Lemma factorial_pos n : 0 < factorial n.
Proof. induction n as [|n IH]; simpl factorial; lia. Qed.

Lemma factorial_succ n : factorial (S n) = factorial n * Z.of_nat (S n).
Proof. done. Qed.

Lemma choose_0_r n : choose n 0 = 1.
Proof. by destruct n. Qed.

Lemma choose_succ n k : choose (S n) (S k) = choose n k + choose n (S k).
Proof. done. Qed.

Lemma choose_gt n k : (n < k)%nat -> choose n k = 0.
Proof.
  revert k. induction n as [|n IH]; intros [|k] Hk; try lia; [done|].
  rewrite choose_succ, !IH by lia. done.
Qed.

Lemma choose_nonneg n k : 0 <= choose n k.
Proof.
  revert k. induction n as [|n IH]; intros [|k]; simpl; try lia.
  specialize (IH k) as H1. specialize (IH (S k)) as H2. simpl in H2. lia.
Qed.

(** [choose n k = n! / (k! * (n - k)!)], without division. *)
Lemma choose_factorial n k :
  (k <= n)%nat -> choose n k * (factorial k * factorial (n - k)) = factorial n.
Proof.
  revert k. induction n as [|n IH]; intros k Hk.
  - replace k with 0%nat by lia. done.
  - destruct k as [|k].
    { rewrite choose_0_r, Nat.sub_0_r. change (factorial 0) with 1. lia. }
    rewrite choose_succ.
    replace (S n - S k)%nat with (n - k)%nat by lia.
    assert (Hk1 : choose n k * (factorial (S k) * factorial (n - k))
                  = Z.of_nat (S k) * factorial n).
    { rewrite <- (IH k) by lia. rewrite factorial_succ. ring. }
    assert (Hk2 : choose n (S k) * (factorial (S k) * factorial (n - k))
                  = Z.of_nat (n - k) * factorial n).
    { destruct (decide (k = n)) as [->|Hne].
      - rewrite choose_gt by lia. replace (n - n)%nat with 0%nat by lia. simpl. lia.
      - rewrite <- (IH (S k)) by lia.
        replace (n - k)%nat with (S (n - S k)) by lia.
        rewrite (factorial_succ (n - S k)). ring. }
    rewrite Z.mul_add_distr_r, Hk1, Hk2, (factorial_succ n).
    replace (Z.of_nat (S n)) with (Z.of_nat (S k) + Z.of_nat (n - k)) by lia. ring.
Qed.

Lemma choose_sym n k : (k <= n)%nat -> choose n (n - k) = choose n k.
Proof.
  intros Hk.
  pose proof (choose_factorial n k Hk) as H1.
  pose proof (choose_factorial n (n - k) ltac:(lia)) as H2.
  replace (n - (n - k))%nat with k in H2 by lia.
  pose proof (factorial_pos k). pose proof (factorial_pos (n - k)).
  apply (Z.mul_cancel_r _ _ (factorial k * factorial (n - k))); [nia|].
  rewrite H1, <- H2. ring.
Qed.

Lemma factorial_product_app p ks ks' :
  factorial_product p (ks ++ ks') = factorial_product (factorial_product p ks) ks'.
Proof. apply fold_left_app. Qed.

Lemma factorial_product_scale p ks : factorial_product p ks = p * factorial_product 1 ks.
Proof.
  revert p. induction ks as [|k ks IH]; intros p; simpl; [lia|].
  unfold factorial_product in *. simpl. rewrite (IH (p * _)), (IH (1 * _)). ring.
Qed.

Lemma factorial_product_pos p ks : 0 < p -> 0 < factorial_product p ks.
Proof.
  revert p. induction ks as [|k ks IH]; intros p Hp; [done|].
  apply IH. pose proof (factorial_pos k). nia.
Qed.

(** The multinomial identity: a product of factorials divides the factorial
    of the sum of the parts. *)
Lemma factorial_product_divide ks :
  (factorial_product 1 ks | factorial (sum_list ks)).
Proof.
  induction ks as [|k ks IH].
  - simpl. by exists 1.
  - unfold factorial_product in *. simpl.
    fold (factorial_product (1 * factorial k) ks).
    rewrite factorial_product_scale. destruct IH as [q Hq].
    exists (choose (k + sum_list ks) k * q).
    rewrite <- (choose_factorial (k + sum_list ks) k) by lia.
    replace (k + sum_list ks - k)%nat with (sum_list ks) by lia.
    rewrite Hq. unfold factorial_product. ring.
Qed.

(** *** Sums *)

Lemma zsum_ext f g n : (forall i, (i < n)%nat -> f i = g i) -> zsum f n = zsum g n.
Proof.
  induction n as [|n IH]; intros H; simpl; [done|].
  rewrite IH, H by (intros; auto with lia). done.
Qed.

Lemma zsum_add f g n : zsum (fun i => f i + g i) n = zsum f n + zsum g n.
Proof. induction n as [|n IH]; simpl; lia. Qed.

Lemma zsum_scale c f n : zsum (fun i => c * f i) n = c * zsum f n.
Proof. induction n as [|n IH]; simpl; lia. Qed.

Lemma zsum_shift f n : zsum f (S n) = f 0%nat + zsum (fun i => f (S i)) n.
Proof. induction n as [|n IH]; [simpl; lia|]. simpl in *. lia. Qed.

Lemma zsum_zero f n : (forall i, (i < n)%nat -> f i = 0) -> zsum f n = 0.
Proof.
  induction n as [|n IH]; intros H; simpl; [done|].
  rewrite IH, H by (intros; auto with lia). done.
Qed.

(** Terms that vanish from [n] on can be left out or added. *)
Lemma zsum_tail f n n' :
  (n <= n')%nat -> (forall i, (n <= i < n')%nat -> f i = 0) -> zsum f n' = zsum f n.
Proof.
  induction 1 as [|n' Hle IH]; intros H; [done|].
  simpl. rewrite IH, H by (intros; auto with lia). lia.
Qed.

Lemma zsum_rev f n : zsum f n = zsum (fun i => f (n - 1 - i)%nat) n.
Proof.
  revert f. induction n as [|n IH]; intros f; [done|].
  rewrite (zsum_shift (fun i => f (S n - 1 - i)%nat)). cbn [zsum].
  rewrite (IH f). replace (S n - 1 - 0)%nat with n by lia.
  rewrite Z.add_comm. f_equal.
  apply zsum_ext. intros i Hi. f_equal. lia.
Qed.

Lemma pow_succ_nat a (k : nat) : a ^ Z.of_nat (S k) = a * a ^ Z.of_nat k.
Proof. rewrite Nat2Z.inj_succ. apply Z.pow_succ_r. lia. Qed.

(** The binomial theorem, with the sum extended by vanishing terms. *)
Lemma binomial_theorem a n N :
  (n < N)%nat -> zsum (fun k => choose n k * a ^ Z.of_nat k) N = (1 + a) ^ Z.of_nat n.
Proof.
  revert N. induction n as [|n IH]; intros N HN.
  - destruct N as [|N]; [lia|]. rewrite zsum_shift. simpl (choose 0 0).
    rewrite zsum_zero; [simpl; lia|]. intros i _. done.
  - destruct N as [|N]; [lia|]. rewrite zsum_shift, choose_0_r.
    rewrite (zsum_ext _ (fun k => a * (choose n k * a ^ Z.of_nat k)
                                  + choose n (S k) * a ^ Z.of_nat (S k))).
    2:{ intros i _. rewrite choose_succ, pow_succ_nat. ring. }
    rewrite zsum_add, zsum_scale, IH by lia.
    pose proof (IH (S N) ltac:(lia)) as Hs.
    rewrite zsum_shift, choose_0_r in Hs.
    rewrite pow_succ_nat. change (a ^ Z.of_nat 0) with 1 in *. lia.
Qed.

(** ** The factorial table *)

Lemma precompute_factorials_spec (n : nat) :
  precompute_factorials (Z.of_nat n) = Ok (factorial <$> seq 0 n).
Proof.
  unfold precompute_factorials. rewrite Nat2Z.id.
  destruct n as [|n]; [done|].
  replace (Z.of_nat (S n)) with (1 + Z.of_nat n) by lia. rewrite range2_nat.
  match goal with
  | |- for_each ?xs ?body ?s = _ =>
      destruct (for_each_invariant
        (fun j (fact : list Z) =>
           fact = (factorial <$> seq 0 (S j)) ++ replicate (n - j) 1) xs body s)
        as (fact & -> & Hfact); [| |f_equal]
  end.
  - by rewrite Nat.sub_0_r.
  - intros j i fact Hi ->.
    apply list_lookup_fmap_Some in Hi as (k & -> & [-> Hk]%lookup_seq). simpl (0 + j)%nat.
    replace (1 + Z.of_nat j - 1) with (Z.of_nat j) by lia.
    erewrite getitem_nat.
    2:{ rewrite lookup_app_l by (rewrite length_fmap, length_seq; lia).
        by rewrite list_lookup_fmap, lookup_seq_lt by lia. }
    cbn [mbind outcome_bind]. replace (1 + Z.of_nat j) with (Z.of_nat (S j)) by lia.
    rewrite setitem_nat by (rewrite length_app, length_fmap, length_seq, length_replicate; lia).
    eexists; split; [done|].
    replace (S j) with (length (factorial <$> seq 0 (S j)) + 0)%nat at 1
      by (rewrite length_fmap, length_seq; lia).
    rewrite insert_app_r. replace (n - j)%nat with (S (n - S j)) by lia.
    rewrite (seq_S (S j)), fmap_app, <- app_assoc. done.
  - rewrite length_fmap, length_seq in Hfact. rewrite Nat.sub_diag in Hfact.
    simpl in Hfact. by rewrite app_nil_r in Hfact.
Qed.

Lemma precompute_factorials_nonpos (layers : Z) :
  layers <= 0 -> precompute_factorials layers = Ok [].
Proof.
  intros Hl. unfold precompute_factorials.
  rewrite range2_empty by lia. by replace (Z.to_nat layers) with 0%nat by lia.
Qed.

(** ** [generate_layer] and its recursive counterpart *)

Lemma repr_readback lo h n its vs m :
  repr lo h n its vs -> (n < m)%nat -> readback m h its = Some vs.
Proof.
  revert its vs m. induction n as [|n IH]; intros its vs [|m] Hrepr Hm; try lia;
    simpl; apply mapM_Some; (eapply Forall2_impl; [exact Hrepr|]);
    intros [z|a] [z'|vl]; simpl; try done; try congruence.
  intros (_ & l & -> & Hl). simpl. by rewrite (IH l vl m Hl) by lia.
Qed.

(** Objects below [lo] do not matter, and [lo] can be lowered. *)
Lemma repr_frame lo lo' h h' n its vs :
  repr lo h n its vs ->
  (lo' <= lo)%nat ->
  (forall b, (lo <= b < length h)%nat -> h' !! b = h !! b) ->
  repr lo' h' n its vs.
Proof.
  intros Hrepr Hlo Hh. revert its vs Hrepr.
  induction n as [|n IH]; intros its vs Hrepr; simpl in *;
    (eapply Forall2_impl; [exact Hrepr|]); intros [z|a] [z'|vl]; simpl; try done.
  intros (Ha & l & Hl & Hrec). split; [lia|]. exists l. split; [|by apply IH].
  rewrite Hh; [done|]. split; [done|]. by eapply lookup_lt_Some.
Qed.

Lemma length_append h a it : length (append h a it) = length h.
Proof. apply length_alter. Qed.

Lemma lookup_append_eq h a it l :
  h !! a = Some l -> append h a it !! a = Some (l ++ [it]).
Proof. intros Hl. unfold append. by rewrite list_lookup_alter_eq, Hl. Qed.

Lemma lookup_append_ne h a b it : a <> b -> append h a it !! b = h !! b.
Proof. apply list_lookup_alter_ne. Qed.

Lemma rev_seq_S (n : nat) : rev (seq 0 (S n)) = n :: rev (seq 0 n).
Proof. by rewrite seq_S, rev_app_distr. Qed.

Lemma elem_of_rev_seq (k n : nat) : k ∈ rev (seq 0 n) <-> (k < n)%nat.
Proof. rewrite list_elem_of_In, <- in_rev, in_seq. lia. Qed.

Section build.

(** The factorial table of a call with [N] layers, a layer [x] of that
    call, and the dimension. *)
Variables (N x : nat) (dim : Z).
Hypothesis Hx : (x < N)%nat.

Local Abbreviation table := (factorial <$> seq 0 N).
Local Abbreviation run := (while_stack table (Z.of_nat x) dim).

Lemma table_lookup k : (k < N)%nat -> getitem table (Z.of_nat k) = Ok (factorial k).
Proof.
  intros Hk. apply getitem_nat. by rewrite list_lookup_fmap, lookup_seq_lt.
Qed.

Lemma penultimate_body_spec a dp r fp k h :
  (k <= r)%nat -> (r <= x)%nat -> fp <> 0 ->
  penultimate_body table (Z.of_nat x) (Frame a dp (Z.of_nat r) fp) (Z.of_nat k) h
  = Ok (append h a (Int (factorial x / (fp * factorial k * factorial (r - k))))).
Proof.
  intros Hk Hr Hfp. unfold penultimate_body. cbn [remaining fact_prod current_sublist].
  replace (Z.of_nat r - Z.of_nat k) with (Z.of_nat (r - k)) by lia.
  rewrite !table_lookup by lia. cbn [mbind outcome_bind].
  unfold floordiv.
  pose proof (factorial_pos k). pose proof (factorial_pos (r - k)).
  destruct (Z.eqb_spec (fp * factorial k * factorial (r - k)) 0) as [Hz|_]; [nia|done].
Qed.

Lemma penultimate_loop a dp r fp ks h l :
  Forall (fun k => k <= r)%nat ks -> (r <= x)%nat -> fp <> 0 ->
  h !! a = Some l ->
  exists h',
    for_each (Z.of_nat <$> ks)
      (penultimate_body table (Z.of_nat x) (Frame a dp (Z.of_nat r) fp)) h = Ok h'
    /\ length h' = length h
    /\ (forall b, b <> a -> h' !! b = h !! b)
    /\ h' !! a =
         Some (l ++ ((fun k => Int (factorial x / (fp * factorial k * factorial (r - k))))
                       <$> ks)).
Proof.
  intros Hks Hr Hfp. revert h l.
  induction Hks as [|k ks Hk _ IH]; intros h l Hl.
  - exists h. by rewrite app_nil_r.
  - cbn [fmap list_fmap for_each]. rewrite penultimate_body_spec by done.
    cbn [mbind outcome_bind].
    edestruct IH as (h' & -> & Hlen & Hne & Ha); [by apply lookup_append_eq|].
    exists h'. split; [done|]. rewrite Hlen, length_append. split; [done|]. split.
    + intros b Hb. by rewrite Hne, lookup_append_ne.
    + by rewrite Ha, <- app_assoc.
Qed.

Lemma intermediate_body_spec a dp r fp k h stack :
  (k <= r)%nat -> (r <= x)%nat ->
  intermediate_body table (Frame a (Z.of_nat dp) (Z.of_nat r) fp) (Z.of_nat k) (h, stack)
  = Ok (append (h ++ [[]]) a (Ref (length h)),
        Frame (length h) (Z.of_nat (S dp)) (Z.of_nat (r - k)) (fp * factorial k) :: stack).
Proof.
  intros Hk Hr. unfold intermediate_body.
  cbn [remaining fact_prod current_sublist depth alloc].
  rewrite table_lookup by lia. cbn [mbind outcome_bind].
  replace (Z.of_nat dp + 1) with (Z.of_nat (S dp)) by lia.
  by replace (Z.of_nat r - Z.of_nat k) with (Z.of_nat (r - k)) by lia.
Qed.

Lemma intermediate_loop a dp r fp m h stack l :
  (m <= S r)%nat -> (r <= x)%nat ->
  h !! a = Some l ->
  exists h',
    for_each (Z.of_nat <$> rev (seq 0 m))
      (intermediate_body table (Frame a (Z.of_nat dp) (Z.of_nat r) fp)) (h, stack)
    = Ok (h', (pushed (length h) m dp r fp <$> seq 0 m) ++ stack)
    /\ length h' = (length h + m)%nat
    /\ (forall b, b <> a -> (b < length h)%nat -> h' !! b = h !! b)
    /\ (forall b, (length h <= b < length h + m)%nat -> h' !! b = Some [])
    /\ h' !! a = Some (l ++ ((fun k => Ref (length h + (m - 1 - k))) <$> rev (seq 0 m))).
Proof.
  intros Hm Hr. revert h stack l.
  induction m as [|m IH]; intros h stack l Hl.
  - exists h. simpl. rewrite app_nil_r, Nat.add_0_r.
    split; [done|]. split; [done|]. split; [done|]. split; [intros; lia|done].
  - assert (Ha : (a < length h)%nat) by by eapply lookup_lt_Some.
    rewrite rev_seq_S. cbn [fmap list_fmap for_each].
    rewrite intermediate_body_spec by lia. cbn [mbind outcome_bind].
    edestruct (IH ltac:(lia) (append (h ++ [[]]) a (Ref (length h)))) as
      (h' & -> & Hlen & Hne & Hnew & Hh'a).
    { apply lookup_append_eq. by rewrite lookup_app_l. }
    rewrite length_append, length_app in *. simpl length in *.
    exists h'. split; [|split; [lia|split; [|split]]].
    + f_equal. f_equal. rewrite seq_S, fmap_app, <- app_assoc. simpl.
      f_equal.
      * apply list_fmap_ext. intros i k [-> Hk]%lookup_seq. unfold pushed.
        f_equal. lia.
      * unfold pushed. do 2 f_equal. lia.
    + intros b Hb Hlt. rewrite Hne by (done || lia).
      rewrite lookup_append_ne by done. by rewrite lookup_app_l.
    + intros b Hb. destruct (decide (b = length h)) as [->|Hne'].
      * rewrite Hne by lia. rewrite lookup_append_ne by lia.
        by rewrite list_lookup_middle.
      * apply Hnew. lia.
    + rewrite Hh'a, <- app_assoc. do 2 f_equal. simpl. f_equal.
      * f_equal. lia.
      * apply list_fmap_ext. intros i k Hk.
        assert (k < m)%nat.
        { by apply list_elem_of_lookup_2, elem_of_rev_seq in Hk. }
        f_equal. lia.
Qed.

Lemma frame_ok_penultimate : frame_ok N x dim 0.
Proof.
  intros h a dp r fp stack Hdim Hr Hfp Ha.
  destruct (penultimate_loop a (Z.of_nat dp) r fp (rev (seq 0 (S r))) h [])
    as (h' & Hloop & Hlen & Hne & Ha'); [|done|done|done|].
  { apply Forall_forall. intros k Hk%elem_of_rev_seq. lia. }
  exists h'. split; [|split; [lia|split; [by auto|]]].
  - intros fuel. change (iterations 0 r + fuel)%nat with (S fuel).
    cbn [while_stack]. unfold loop_body. cbn [depth remaining].
    destruct (Z.eqb_spec (Z.of_nat dp) (dim - 1)) as [?|_]; [lia|].
    destruct (Z.eqb_spec (Z.of_nat dp + 1) (dim - 1)) as [_|?]; [|lia].
    replace (Z.of_nat r + 1) with (Z.of_nat (S r)) by lia.
    rewrite reversed_range_nat, Hloop. done.
  - eexists. split; [exact Ha'|]. rewrite app_nil_l. simpl.
    apply Forall2_fmap, Forall_Forall2_diag, Forall_forall. done.
Qed.

(** Running the loop on the elements pushed by an intermediate loop. *)
Lemma run_pushed n L dp r fp ks h stack :
  frame_ok N x dim n ->
  Z.of_nat (S dp) + Z.of_nat n + 2 = dim ->
  (r <= x)%nat -> fp <> 0 ->
  NoDup ks -> Forall (fun k => k <= r)%nat ks ->
  (L + S r <= length h)%nat ->
  (forall k, k ∈ ks -> h !! (L + (S r - 1 - k))%nat = Some []) ->
  exists h',
    (forall fuel,
        run (sum_list ((fun k => iterations n (r - k)) <$> ks) + fuel)
          (h, (pushed L (S r) dp r fp <$> ks) ++ stack)
        = run fuel (h', stack))
    /\ (length h <= length h')%nat
    /\ (ks <> [] -> (length h + n <= length h')%nat)
    /\ (forall b, (b < length h)%nat ->
                  (forall k, k ∈ ks -> b <> (L + (S r - 1 - k))%nat) ->
                  h' !! b = h !! b)
    /\ (forall k, k ∈ ks ->
           exists its, h' !! (L + (S r - 1 - k))%nat = Some its
                       /\ repr (L + S r) h' n its (content x n (r - k) (fp * factorial k))).
Proof.
  intros Hn Hdim Hr Hfp Hnodup Hks. revert h.
  induction Hks as [|k ks Hk Hks IH]; intros h HL Hempty.
  - exists h. split; [done|]. split; [done|]. split; [done|]. split; [done|].
    intros k Hk. by apply elem_of_nil in Hk.
  - apply NoDup_cons in Hnodup as [Hk_notin Hnodup].
    pose proof (factorial_pos k) as Hkpos.
    destruct (Hn h (L + (S r - 1 - k))%nat (S dp) (r - k)%nat (fp * factorial k)
                ((pushed L (S r) dp r fp <$> ks) ++ stack))
      as (h1 & Hrun1 & Hlen1 & Hne1 & its1 & Hits1 & Hrepr1);
      [done|lia|nia|apply Hempty; by left|].
    destruct (IH Hnodup h1) as (h' & Hrun2 & Hlen2 & Hlen2' & Hne2 & Hrepr2); [lia| |].
    { intros k' Hk'. rewrite Hne1; [apply Hempty; by right| |lia].
      apply Forall_forall with (x := k') in Hks; [|done].
      intros Heq. assert (k' = k) as -> by lia. done. }
    assert (Hother : forall k', k' ∈ ks -> (L + (S r - 1 - k) <> L + (S r - 1 - k'))%nat).
    { intros k' Hk' Heq. apply Forall_forall with (x := k') in Hks; [|done].
      assert (k' = k) as -> by lia. done. }
    exists h'. split; [|split; [lia|split; [intros _; lia|split]]].
    + intros fuel. cbn [fmap list_fmap sum_list_with app]. unfold id at 1.
      rewrite <- Nat.add_assoc. unfold pushed at 1. rewrite Hrun1. apply Hrun2.
    + intros b Hb Hbk. rewrite Hne2; [|lia|intros k' Hk'; apply Hbk; by right].
      apply Hne1; [apply Hbk; by left|done].
    + intros k0 [->|Hk0]%elem_of_cons; [|by apply Hrepr2].
      exists its1. split.
      * rewrite Hne2; [done|lia|done].
      * eapply repr_frame; [exact Hrepr1|lia|].
        intros b Hb. apply Hne2; [lia|]. intros k' Hk'.
        apply Forall_forall with (x := k') in Hks; [|done]. lia.
Qed.

Lemma frame_ok_intermediate n : frame_ok N x dim n -> frame_ok N x dim (S n).
Proof.
  intros Hn h a dp r fp stack Hdim Hr Hfp Ha.
  assert (Halen : (a < length h)%nat) by by eapply lookup_lt_Some.
  destruct (intermediate_loop a dp r fp (S r) h stack []) as
    (h0 & Hloop & Hlen0 & Hne0 & Hnew0 & Ha0); [done|done|done|].
  destruct (run_pushed n (length h) dp r fp (seq 0 (S r)) h0 stack) as
    (h' & Hrun & Hlen & Hlen' & Hne & Hrepr); [done|lia|done|done|apply NoDup_seq| |lia| |].
  { apply Forall_forall. intros k Hk%elem_of_seq. lia. }
  { intros k Hk%elem_of_seq. apply Hnew0. lia. }
  exists h'. split; [|split; [|split]].
  - intros fuel. cbn [iterations Nat.add while_stack]. unfold loop_body.
    cbn [depth remaining].
    destruct (Z.eqb_spec (Z.of_nat dp) (dim - 1)) as [?|_]; [lia|].
    destruct (Z.eqb_spec (Z.of_nat dp + 1) (dim - 1)) as [?|_]; [lia|].
    replace (Z.of_nat r + 1) with (Z.of_nat (S r)) by lia.
    rewrite reversed_range_nat, Hloop. apply Hrun.
  - specialize (Hlen' ltac:(done)). lia.
  - intros b Hb Hlt. rewrite Hne; [by apply Hne0|lia|intros; lia].
  - eexists. split.
    + rewrite Hne; [exact Ha0|lia|intros; lia].
    + rewrite app_nil_l. cbn [content repr].
      apply Forall2_fmap, Forall_Forall2_diag, Forall_forall.
      intros k Hk%elem_of_rev_seq. split; [lia|].
      destruct (Hrepr k) as (its & Hits & Hr'); [apply elem_of_seq; lia|].
      exists its. split; [done|].
      eapply repr_frame; [exact Hr'|lia|done].
Qed.

Lemma frame_ok_all n : frame_ok N x dim n.
Proof.
  induction n as [|n IH]; [apply frame_ok_penultimate|by apply frame_ok_intermediate].
Qed.

(** [generate_layer] returns the recursive [content], within its budget. *)
Lemma generate_layer_spec n :
  dim = Z.of_nat n + 2 ->
  generate_layer table (Z.of_nat x) dim (iterations n x) = Ok (content x n x 1).
Proof.
  intros Hdim. unfold generate_layer. cbv zeta.
  destruct (frame_ok_all n [[]] 0%nat 0%nat x 1 []) as
    (h' & Hrun & Hlen & _ & its & Hits & Hrepr); [lia|done|done|done|].
  specialize (Hrun 0%nat). rewrite Nat.add_0_r in Hrun. change (Z.of_nat 0) with 0 in Hrun.
  rewrite Hrun. destruct h' as [|l0 h']; [done|]. cbn [while_stack mbind outcome_bind].
  rewrite Hits. cbn [mbind option_bind].
  erewrite repr_readback; [done|exact Hrepr|]. simpl in Hlen |- *. lia.
Qed.

End build.

(** ** [createPascalSimplex] as a function of the layer index *)

Lemma replicate_fmap_seq {A : Type} (a : A) (n : nat) :
  replicate n a = (fun _ => a) <$> seq 0 n.
Proof.
  apply list_eq. intros i. rewrite list_lookup_fmap.
  destruct (decide (i < n)%nat).
  - by rewrite lookup_replicate_2, lookup_seq_lt.
  - rewrite lookup_seq_ge by lia. simpl. apply lookup_replicate_None. lia.
Qed.

Lemma createPascalSimplex_spec (layers dimension : Z) :
  1 <= dimension ->
  createPascalSimplex layers dimension
  = Ok (simplex_layer dimension <$> seq 0 (Z.to_nat layers)).
Proof.
  intros Hd. unfold createPascalSimplex, simplex_layer.
  destruct (Z.ltb_spec dimension 1) as [?|_]; [lia|].
  destruct (Z.eqb_spec layers 0) as [->|Hl]; [done|].
  destruct (Z.eqb_spec dimension 1) as [->|Hd1].
  { by rewrite replicate_fmap_seq. }
  destruct (Z.le_gt_cases layers 0) as [Hneg|Hpos].
  { rewrite precompute_factorials_nonpos, range_nonpos by lia.
    by replace (Z.to_nat layers) with 0%nat by lia. }
  assert (Hn : exists n, layers = Z.of_nat n) by (exists (Z.to_nat layers); lia).
  destruct Hn as [n ->].
  rewrite precompute_factorials_spec, range_nat, Nat2Z.id. cbn [mbind outcome_bind].
  set (lv := Z.to_nat (dimension - 2)).
  rewrite for_each_map.
  match goal with
  | |- for_each ?xs ?body ?s = _ =>
      destruct (for_each_invariant
        (fun j (simplex : list value) =>
           simplex = (fun x => VList (content x lv x 1)) <$> seq 0 j) xs body s)
        as (simplex & -> & Hs); [done| |by rewrite length_seq in Hs; subst]
  end.
  intros j x simplex [-> Hj]%lookup_seq ->. simpl (0 + j)%nat.
  rewrite Nat2Z.id, (generate_layer_spec n j dimension Hj lv) by lia.
  cbn [mbind outcome_bind]. eexists. split; [done|].
  by rewrite seq_S, fmap_app.
Qed.

(** ** The closed form of the hyperplane sums *)

Lemma hterm_0 c m L : hterm c m L 0 = 1.
Proof. unfold hterm. by rewrite choose_0_r. Qed.

Lemma hterm_beyond c m L i : (L - i * m < i)%nat -> hterm c m L i = 0.
Proof. intros Hi. unfold hterm. by rewrite choose_gt. Qed.

Lemma hypersum_stable c m L N :
  (1 <= m)%nat -> (S (L / m) <= N)%nat -> zsum (hterm c m L) N = hypersum c m L.
Proof.
  intros Hm HN. unfold hypersum.
  assert (Hq : (L < m * S (L / m))%nat) by (apply Nat.mul_succ_div_gt; lia).
  assert (HqL : (L / m <= L)%nat) by (apply Nat.Div0.div_le_upper_bound; nia).
  rewrite (zsum_tail _ (S (L / m)) N), (zsum_tail _ (S (L / m)) (S L)); [done|lia| |lia|];
    intros i Hi; apply hterm_beyond; nia.
Qed.

Lemma hypersum_initial c m L : (1 <= m)%nat -> (L <= m)%nat -> hypersum c m L = 1.
Proof.
  intros Hm HL. unfold hypersum. rewrite zsum_shift, hterm_0.
  rewrite zsum_zero; [done|]. intros i _. apply hterm_beyond. nia.
Qed.

(** Pascal's rule, step by step. *)
Lemma hterm_succ c m L i :
  (1 <= m)%nat -> (m + 1 <= L)%nat ->
  hterm c m L (S i) = hterm c m (L - 1) (S i) + c * hterm c m (L - (m + 1)) i.
Proof.
  intros Hm HL. unfold hterm. rewrite pow_succ_nat.
  destruct (decide (S i * m < L)%nat) as [Hlt|Hge].
  - replace (L - S i * m)%nat with (S (L - 1 - S i * m)) by lia.
    rewrite choose_succ.
    replace (L - (m + 1) - i * m)%nat with (L - 1 - S i * m)%nat by lia. ring.
  - rewrite (choose_gt (L - S i * m)), (choose_gt (L - 1 - S i * m)) by lia.
    destruct i as [|i]; [lia|].
    rewrite (choose_gt (L - (m + 1) - S i * m)) by lia. ring.
Qed.

(** The recurrence [x_n = x_{n-1} + (d - 1) * x_{n-(m+1)}]. *)
Lemma hypersum_recurrence c m L :
  (1 <= m)%nat -> (m + 1 <= L)%nat ->
  hypersum c m L = hypersum c m (L - 1) + c * hypersum c m (L - (m + 1)).
Proof.
  intros Hm HL.
  assert (Hdiv : forall L', (S (L' / m) <= L' + 1)%nat).
  { intros L'. assert (L' / m <= L')%nat by (apply Nat.Div0.div_le_upper_bound; nia). lia. }
  rewrite <- (hypersum_stable c m (L - 1) (S L)), <- (hypersum_stable c m (L - (m + 1)) L);
    [|done|specialize (Hdiv (L - (m + 1))%nat); lia|done|specialize (Hdiv (L - 1)%nat); lia].
  unfold hypersum. rewrite !zsum_shift, !hterm_0.
  rewrite (zsum_ext _ (fun i => hterm c m (L - 1) (S i) + c * hterm c m (L - (m + 1)) i))
    by (intros; by apply hterm_succ).
  rewrite zsum_add, zsum_scale. ring.
Qed.

(** In dimension one only the first step contributes. *)
Lemma hypersum_dimension_1 m L : hypersum 0 m L = 1.
Proof.
  unfold hypersum. rewrite zsum_shift, hterm_0, zsum_zero; [done|].
  intros i _. unfold hterm. rewrite Z.pow_0_l; lia.
Qed.

Lemma range2_to_nat (a b : Z) :
  range2 a b = (fun j => a + Z.of_nat j) <$> seq 0 (Z.to_nat (b - a)).
Proof. unfold range2, seqZ. apply list_fmap_ext. intros; lia. Qed.

Lemma range_to_nat (n : Z) : range n = Z.of_nat <$> seq 0 (Z.to_nat n).
Proof.
  unfold range. rewrite range2_to_nat, Z.sub_0_r. apply list_fmap_ext. intros; lia.
Qed.

(** ** [calculateSequence] computes the closed form *)

Lemma calculateSequence_spec (dimension m k : Z) :
  1 <= m ->
  calculateSequence dimension m k
  = Ok (hypersum (dimension - 1) (Z.to_nat m) <$> seq 0 (Z.to_nat k)).
Proof.
  intros Hm. unfold calculateSequence.
  set (c := dimension - 1). set (m' := Z.to_nat m).
  rewrite range_to_nat, range2_to_nat, !for_each_map.
  set (n1 := Z.to_nat (Z.min k (m + 1))). set (n2 := Z.to_nat (k - (m + 1))).
  match goal with
  | |- for_each ?xs ?body ?s ≫= _ = _ =>
      destruct (for_each_invariant
        (fun j (res : list Z) =>
           (j <= n1)%nat /\ res = hypersum c m' <$> seq 0 j) xs body s)
        as (res & -> & _ & ->); [split; [lia|done]| |]
  end.
  { intros j i res [-> Hj]%lookup_seq [_ ->]. eexists. split; [done|].
    split; [lia|]. rewrite seq_S, fmap_app. simpl.
    rewrite hypersum_initial by lia. done. }
  cbn [mbind outcome_bind]. rewrite length_seq, for_each_map.
  match goal with
  | |- for_each ?xs ?body ?s = _ =>
      destruct (for_each_invariant
        (fun j (res : list Z) => res = hypersum c m' <$> seq 0 (n1 + j)) xs body s)
        as (res & -> & ->); [by rewrite Nat.add_0_r| |]
  end.
  { intros j i res [-> Hj]%lookup_seq ->. simpl (0 + j)%nat.
    assert (Hn1 : n1 = (m' + 1)%nat) by lia.
    replace (m + 1 + Z.of_nat j - 1) with (Z.of_nat (m' + j)) by lia.
    replace (m + 1 + Z.of_nat j - (m + 1)) with (Z.of_nat j) by lia.
    rewrite (getitem_nat _ (m' + j) (hypersum c m' (m' + j)))
      by (rewrite list_lookup_fmap, lookup_seq_lt by lia; done).
    cbn [mbind outcome_bind].
    rewrite (getitem_nat _ j (hypersum c m' j))
      by (rewrite list_lookup_fmap, lookup_seq_lt by lia; done).
    cbn [mbind outcome_bind]. eexists. split; [done|].
    replace (n1 + S j)%nat with (S (n1 + j)) by lia.
    rewrite seq_S, fmap_app. simpl. do 3 f_equal.
    rewrite (hypersum_recurrence c m' (n1 + j)) by lia.
    replace (n1 + j - 1)%nat with (m' + j)%nat by lia.
    replace (n1 + j - (m' + 1))%nat with j by lia. done. }
  rewrite length_seq. do 3 f_equal. lia.
Qed.

(** ** Sums of nested lists *)

(** The loop of [calculate_sum_nested_list], as the source writes it. *)
Lemma calculate_sum_nested_list_eq (nested_list : list value) :
  calculate_sum_nested_list nested_list
  = fold_left (fun total_sum element =>
                 match element with
                 | VList l => total_sum + calculate_sum_nested_list l
                 | VInt z => total_sum + z
                 end) nested_list 0.
Proof.
  unfold calculate_sum_nested_list at 1. cbn [element_sum]. generalize 0.
  induction nested_list as [|element elements IH]; intros total_sum; [done|].
  cbn [fold_left]. rewrite IH. by destruct element.
Qed.

Lemma calculate_sum_nested_list_cons (element : value) (elements : list value) :
  calculate_sum_nested_list (element :: elements)
  = element_sum element + calculate_sum_nested_list elements.
Proof.
  rewrite !calculate_sum_nested_list_eq. cbn [fold_left].
  assert (Hacc : forall t,
    fold_left (fun total_sum element =>
                 match element with
                 | VList l => total_sum + calculate_sum_nested_list l
                 | VInt z => total_sum + z
                 end) elements t
    = t + fold_left (fun total_sum element =>
                       match element with
                       | VList l => total_sum + calculate_sum_nested_list l
                       | VInt z => total_sum + z
                       end) elements 0).
  { induction elements as [|e es IH]; intros t; cbn [fold_left]; [lia|].
    rewrite IH, (IH (match e with VList _ => _ | VInt _ => _ end)).
    destruct e; lia. }
  rewrite Hacc. by destruct element.
Qed.

Lemma calculate_sum_nested_list_rev_seq (g : nat -> value) (n : nat) :
  calculate_sum_nested_list (g <$> rev (seq 0 n)) = zsum (fun k => element_sum (g k)) n.
Proof.
  induction n as [|n IH]; [done|].
  rewrite rev_seq_S, fmap_cons, calculate_sum_nested_list_cons, IH. simpl. lia.
Qed.

(** A sublist with remaining sum [r] sums to [c * (n + 2) ^ r], where [c] is
    the multinomial coefficient of the parts chosen so far. *)
Lemma content_sum (x n r : nat) (fp c : Z) :
  0 < fp ->
  factorial x = c * (fp * factorial r) ->
  calculate_sum_nested_list (content x n r fp) = c * (Z.of_nat n + 2) ^ Z.of_nat r.
Proof.
  revert r fp c. induction n as [|n IH]; intros r fp c Hfp Hx;
    cbn [content]; rewrite calculate_sum_nested_list_rev_seq.
  - rewrite (zsum_ext _ (fun k => c * (choose r k * 1 ^ Z.of_nat k))).
    + rewrite zsum_scale, binomial_theorem by lia. done.
    + intros k Hk. cbn [element_sum]. rewrite Z.pow_1_l, Z.mul_1_r by lia.
      pose proof (factorial_pos k). pose proof (factorial_pos (r - k)).
      rewrite Hx, <- (choose_factorial r k) by lia.
      replace (c * (fp * (choose r k * (factorial k * factorial (r - k)))))
        with (c * choose r k * (fp * factorial k * factorial (r - k))) by ring.
      apply Z.div_mul. nia.
  - rewrite (zsum_ext _ (fun k => c * (choose r (r - k) * (Z.of_nat n + 2) ^ Z.of_nat (r - k)))).
    + rewrite zsum_scale.
      rewrite (zsum_rev (fun k => choose r (r - k) * _)). cbn beta.
      rewrite (zsum_ext _ (fun k => choose r k * (Z.of_nat n + 2) ^ Z.of_nat k)).
      * rewrite binomial_theorem by lia. do 2 f_equal. lia.
      * intros k Hk. replace (r - (S r - 1 - k))%nat with k by lia.
        done.
    + intros k Hk.
      change (element_sum (VList ?l)) with (calculate_sum_nested_list l).
      pose proof (factorial_pos k).
      rewrite (IH (r - k)%nat (fp * factorial k) (c * choose r k)); [|nia|].
      * rewrite choose_sym by lia. ring.
      * rewrite Hx, <- (choose_factorial r k) by lia. ring.
Qed.

(** ** The walk of [calculateHypersumsInPascalSimplex] *)

Lemma lookup_rev_seq (n i : nat) : (i < n)%nat -> rev (seq 0 n) !! i = Some (n - 1 - i)%nat.
Proof.
  revert i. induction n as [|n IH]; intros i Hi; [lia|].
  rewrite rev_seq_S. destruct i as [|i]; simpl; [f_equal; lia|].
  rewrite IH by lia. f_equal. lia.
Qed.

Lemma length_content (x n r : nat) (fp : Z) : length (content x n r fp) = S r.
Proof.
  destruct n; cbn [content]; by rewrite length_fmap, length_rev, length_seq.
Qed.

(** The element [i] of layer [x] sums to [choose x i * (dimension - 1) ^ i]. *)
Lemma content_lookup_sum (x n i : nat) :
  (i <= x)%nat ->
  exists element,
    content x n x 1 !! i = Some element
    /\ element_sum element = choose x i * (Z.of_nat n + 1) ^ Z.of_nat i.
Proof.
  intros Hi. pose proof (factorial_pos (x - i)) as Hpos.
  pose proof (choose_factorial x i Hi) as Hc.
  destruct n as [|n]; cbn [content]; rewrite list_lookup_fmap, lookup_rev_seq by lia;
    replace (S x - 1 - i)%nat with (x - i)%nat by lia;
    eexists; (split; [done|]).
  - cbn [element_sum]. replace (x - (x - i))%nat with i by lia.
    rewrite Z.pow_1_l, Z.mul_1_r, <- Hc by lia.
    replace (1 * factorial (x - i) * factorial i) with (factorial i * factorial (x - i)) by ring.
    apply Z.div_mul. pose proof (factorial_pos i). nia.
  - change (element_sum (VList ?l)) with (calculate_sum_nested_list l).
    replace (x - (x - i))%nat with i by lia.
    rewrite (content_sum x n i _ (choose x i)); [|lia|rewrite <- Hc; ring].
    do 2 f_equal. lia.
Qed.

Section walk.

(** A simplex of [n] layers in dimension [d >= 2], walked with slope
    [m >= 1]. *)
Variables (d : Z) (n m : nat).
Hypothesis Hd : 2 <= d.
Hypothesis Hm : (1 <= m)%nat.

Local Abbreviation simplex := (simplex_layer d <$> seq 0 n).

Lemma simplex_getitem idx :
  (idx < n)%nat ->
  getitem simplex (Z.of_nat idx)
  = Ok (VList (content idx (Z.to_nat (d - 2)) idx 1)).
Proof.
  intros Hidx. erewrite getitem_nat; [|by rewrite list_lookup_fmap, lookup_seq_lt].
  unfold simplex_layer. simpl. destruct (Z.eqb_spec d 1); [lia|done].
Qed.

(** From step [i] on, the walk of layer [L] adds the terms of the closed
    form, and it ends at the first negative index. *)
Lemma hyperplane_walk_steps L steps i acc fuel :
  (L < n)%nat ->
  (steps < fuel)%nat ->
  (L < (i + steps) * m)%nat ->
  (forall j, (j < steps)%nat -> ((i + j) * m <= L)%nat) ->
  hyperplane_walk fuel simplex (Z.of_nat m) (Z.of_nat L) (Z.of_nat i) acc
  = Ok (acc + zsum (fun j => hterm (d - 1) m L (i + j)) steps, NegativeIndex).
Proof.
  intros HL. revert i acc fuel.
  induction steps as [|steps IH]; intros i acc [|fuel] Hfuel Hend Hin; try lia;
    cbn [hyperplane_walk].
  - destruct (Z.ltb_spec (Z.of_nat L - Z.of_nat i * Z.of_nat m) 0) as [_|?]; [|nia].
    simpl. do 2 f_equal. lia.
  - specialize (Hin 0%nat ltac:(lia)) as Hi0. rewrite Nat.add_0_r in Hi0.
    destruct (Z.ltb_spec (Z.of_nat L - Z.of_nat i * Z.of_nat m) 0) as [?|_]; [nia|].
    replace (Z.of_nat L - Z.of_nat i * Z.of_nat m) with (Z.of_nat (L - i * m)) by nia.
    rewrite simplex_getitem by lia.
    set (idx := (L - i * m)%nat). set (lv := Z.to_nat (d - 2)).
    assert (Hstep :
      (if Z.of_nat i <? len (content idx lv idx 1)
       then sub_value ← getitem (content idx lv idx 1) (Z.of_nat i);
            match sub_value with
            | VInt z => Ok (acc + z)
            | VList l => Ok (acc + calculate_sum_nested_list l)
            end
       else Ok acc) = Ok (acc + hterm (d - 1) m L i)).
    { unfold len. rewrite length_content.
      destruct (Z.ltb_spec (Z.of_nat i) (Z.of_nat (S idx))) as [Hlt|Hge].
      - destruct (content_lookup_sum idx lv i) as (element & Hel & Hsum); [lia|].
        rewrite (getitem_nat _ _ _ Hel). cbn [mbind outcome_bind].
        unfold hterm. fold idx. replace (d - 1) with (Z.of_nat lv + 1) by lia.
        rewrite <- Hsum. by destruct element.
      - rewrite hterm_beyond by (fold idx; lia). f_equal. lia. }
    rewrite Hstep. cbn [mbind outcome_bind].
    replace (Z.of_nat i + 1) with (Z.of_nat (S i)) by lia.
    rewrite IH; [|lia|lia|].
    + rewrite (zsum_shift (fun j => hterm (d - 1) m L (i + j))), Nat.add_0_r.
      do 2 f_equal. rewrite <- Z.add_assoc. f_equal. f_equal.
      apply zsum_ext. intros j _. f_equal. lia.
    + intros j Hj. specialize (Hin (S j) ltac:(lia)). lia.
Qed.

Lemma hyperplane_walk_layer L fuel :
  (L < n)%nat -> (n < fuel)%nat ->
  hyperplane_walk fuel simplex (Z.of_nat m) (Z.of_nat L) 0 0
  = Ok (hypersum (d - 1) m L, NegativeIndex).
Proof.
  intros HL Hfuel.
  assert (Hq : (L < m * S (L / m))%nat) by (apply Nat.mul_succ_div_gt; lia).
  assert (HqL : (m * (L / m) <= L)%nat) by (apply Nat.Div0.mul_div_le).
  rewrite (hyperplane_walk_steps L (S (L / m)) 0); [|done|nia|lia|intros; nia].
  by rewrite Z.add_0_l, hypersum_stable.
Qed.

End walk.

(** *** The walk on an arbitrary simplex *)

Lemma for_each_raise {X S : Type} (xs : list X) (body : X -> S -> outcome S) s e :
  for_each xs body s = Raise e -> exists x s', x ∈ xs /\ body x s' = Raise e.
Proof.
  revert s. induction xs as [|x xs IH]; intros s; simpl; [done|].
  destruct (body x s) as [s'|e'|] eqn:Hb; simpl; [|intros [= ->]|done].
  - intros (y & t & Hy & Ht)%IH. exists y, t. split; [by right|done].
  - exists x, s. split; [by left|done].
Qed.

(** What one step adds to the accumulator never fails when [0 <= i]. *)
Lemma walk_add_ok (value : list value) (i plain_sum : Z) :
  0 <= i ->
  exists plain_sum',
    (if i <? len value
     then sub_value ← getitem value i;
          match sub_value with
          | VInt z => Ok (plain_sum + z)
          | VList l => Ok (plain_sum + calculate_sum_nested_list l)
          end
     else Ok plain_sum) = Ok plain_sum'.
Proof.
  intros Hi. destruct (Z.ltb_spec i (len value)) as [Hlt|_]; [|by eexists].
  destruct (getitem_in_range value i) as (sub_value & _ & ->); [lia|].
  destruct sub_value; by eexists.
Qed.

(** The loop of a layer raises no exception, whatever the slope. *)
Lemma hyperplane_walk_never_raises fuel simplex m layer i acc e :
  0 <= i -> hyperplane_walk fuel simplex m layer i acc <> Raise e.
Proof.
  revert i acc. induction fuel as [|fuel IH]; intros i acc Hi; cbn [hyperplane_walk]; [done|].
  destruct (_ <? 0); [done|].
  destruct (getitem simplex (layer - i * m)) as [[z|value]|e'|] eqn:Hget; [done| | |done].
  - destruct (walk_add_ok value i acc Hi) as [acc' ->]. cbn [mbind outcome_bind].
    apply IH. lia.
  - apply getitem_raise in Hget as ->. done.
Qed.

(** With a slope [m >= 0] every index that is not negative is in range, and
    the [except IndexError] exit is never taken. *)
Lemma hyperplane_walk_index_in_range (simplex : list value) (m layer i : Z) :
  0 <= m -> 0 <= i -> layer < len simplex -> 0 <= layer - i * m ->
  layer - i * m <= layer /\ exists value, getitem simplex (layer - i * m) = Ok value.
Proof.
  intros Hm Hi Hlayer Hidx. split; [nia|].
  destruct (getitem_in_range simplex (layer - i * m)) as (v & _ & Hv); [nia|by exists v].
Qed.

Lemma hyperplane_walk_no_index_error fuel simplex m layer i acc s ex :
  0 <= m -> 0 <= i -> layer < len simplex ->
  hyperplane_walk fuel simplex m layer i acc = Ok (s, ex) ->
  ex <> IndexOutOfRange.
Proof.
  intros Hm Hi Hlayer. revert i acc Hi.
  induction fuel as [|fuel IH]; intros i acc Hi; cbn [hyperplane_walk]; [done|].
  destruct (Z.ltb_spec (layer - i * m) 0) as [_|Hidx]; [by intros [= _ <-]|].
  destruct (hyperplane_walk_index_in_range simplex m layer i) as [_ [value ->]]; [done..|].
  destruct value as [z|value]; [by intros [= _ <-]|].
  destruct (walk_add_ok value i acc Hi) as [acc' ->]. cbn [mbind outcome_bind].
  apply IH. lia.
Qed.

(** With a slope [m >= 1] the index [layer - i * m] falls below [0] after
    at most [layer + 1] steps, so the loop of a layer returns. *)
Lemma hyperplane_walk_returns fuel simplex m layer i acc :
  1 <= m -> 0 <= i -> 0 <= layer < len simplex ->
  (Z.to_nat (layer + 1 - i) < fuel)%nat ->
  exists s ex, hyperplane_walk fuel simplex m layer i acc = Ok (s, ex).
Proof.
  intros Hm Hi Hlayer. revert i acc Hi.
  induction fuel as [|fuel IH]; intros i acc Hi Hfuel; [lia|]. cbn [hyperplane_walk].
  destruct (Z.ltb_spec (layer - i * m) 0) as [_|Hidx]; [by eexists _, _|].
  destruct (hyperplane_walk_index_in_range simplex m layer i) as [_ [value ->]];
    [lia|done|lia|done|].
  destruct value as [z|value]; [by eexists _, _|].
  destruct (walk_add_ok value i acc Hi) as [acc' ->]. cbn [mbind outcome_bind].
  apply IH; [lia|]. assert (i <= layer) by nia. lia.
Qed.

(** With a slope [m < 0] the index grows and leaves the simplex. *)
Lemma hyperplane_walk_negative_slope fuel simplex m layer i acc :
  m < 0 -> 0 <= i -> 0 <= layer ->
  (Z.to_nat (len simplex - i) < fuel)%nat ->
  exists s ex, hyperplane_walk fuel simplex m layer i acc = Ok (s, ex).
Proof.
  intros Hm Hi Hlayer. revert i acc Hi.
  induction fuel as [|fuel IH]; intros i acc Hi Hfuel; [lia|]. cbn [hyperplane_walk].
  destruct (Z.ltb_spec (layer - i * m) 0) as [_|Hidx]; [by eexists _, _|].
  destruct (getitem simplex (layer - i * m)) as [[z|value]|e'|] eqn:Hget.
  - by eexists _, _.
  - destruct (walk_add_ok value i acc Hi) as [acc' ->]. cbn [mbind outcome_bind].
    apply IH; [lia|].
    destruct (Z.le_gt_cases (len simplex) (layer - i * m)) as [Hout|Hin].
    + by rewrite getitem_out_of_range in Hget.
    + assert (i < len simplex) by nia. lia.
  - apply getitem_raise in Hget as ->. by eexists _, _.
  - by apply getitem_not_out_of_fuel in Hget.
Qed.

(** The outer loop: one entry per layer. *)
Lemma calculateHypersums_layers fuel simplex m (f : nat -> Z) :
  (forall L, (L < length simplex)%nat ->
             exists ex, hyperplane_walk fuel simplex m (Z.of_nat L) 0 0 = Ok (f L, ex)) ->
  calculateHypersumsInPascalSimplex fuel simplex m = Ok (f <$> seq 0 (length simplex)).
Proof.
  intros Hwalk. unfold calculateHypersumsInPascalSimplex, len.
  rewrite range_nat, for_each_map.
  match goal with
  | |- for_each ?xs ?body ?s = _ =>
      destruct (for_each_invariant
        (fun j (res : list Z) => res = f <$> seq 0 j) xs body s)
        as (res & -> & ->); [done| |by rewrite length_seq]
  end.
  intros j L res [-> Hj]%lookup_seq ->. simpl (0 + j)%nat.
  destruct (Hwalk j Hj) as [ex ->]. cbn [mbind outcome_bind]. eexists. split; [done|].
  by rewrite seq_S, fmap_app.
Qed.

Lemma calculateHypersums_never_raises fuel simplex m e :
  calculateHypersumsInPascalSimplex fuel simplex m <> Raise e.
Proof.
  unfold calculateHypersumsInPascalSimplex.
  intros (layer & res & _ & Hbody)%for_each_raise.
  destruct (hyperplane_walk fuel simplex m layer 0 0) as [r|e'|] eqn:Hwalk; try done.
  simpl in Hbody. injection Hbody as ->.
  by apply hyperplane_walk_never_raises in Hwalk.
Qed.

(** Whenever the loops of all layers return, there is one sum per layer. *)
Lemma calculateHypersums_returns fuel simplex m :
  (forall L, (L < length simplex)%nat ->
             exists s ex, hyperplane_walk fuel simplex m (Z.of_nat L) 0 0 = Ok (s, ex)) ->
  exists res, calculateHypersumsInPascalSimplex fuel simplex m = Ok res
              /\ length res = length simplex.
Proof.
  intros Hwalk.
  exists ((fun L => match hyperplane_walk fuel simplex m (Z.of_nat L) 0 0 with
                    | Ok r => r.1
                    | _ => 0
                    end) <$> seq 0 (length simplex)).
  split; [|by rewrite length_fmap, length_seq].
  apply calculateHypersums_layers. intros L HL.
  destruct (Hwalk L HL) as (s & ex & ->). by exists ex.
Qed.

(** On a one-dimensional simplex every layer loop ends at the first bare
    scalar, for every slope. *)
Lemma calculateHypersums_scalars (fuel : nat) (n : nat) (m : Z) :
  (1 <= fuel)%nat ->
  calculateHypersumsInPascalSimplex fuel (replicate n (VInt 1)) m = Ok (replicate n 1).
Proof.
  intros Hfuel.
  rewrite (calculateHypersums_layers _ _ _ (fun _ => 1)); rewrite length_replicate.
  - by rewrite <- replicate_fmap_seq.
  - intros L HL. exists BareScalar. destruct fuel as [|fuel]; [lia|]. cbn [hyperplane_walk].
    rewrite Z.mul_0_l, Z.sub_0_r.
    destruct (Z.ltb_spec (Z.of_nat L) 0) as [?|_]; [lia|].
    by erewrite getitem_nat; [|by apply lookup_replicate_2].
Qed.

(** The hypersums of a generated simplex are the closed form. *)
Lemma calculateHypersums_spec (d m : Z) (n fuel : nat) :
  1 <= d -> 1 <= m -> (n < fuel)%nat ->
  calculateHypersumsInPascalSimplex fuel (simplex_layer d <$> seq 0 n) m
  = Ok (hypersum (d - 1) (Z.to_nat m) <$> seq 0 n).
Proof.
  intros Hd Hm Hfuel.
  rewrite (calculateHypersums_layers _ _ _ (hypersum (d - 1) (Z.to_nat m)));
    rewrite length_fmap, length_seq; [done|].
  intros L HL. destruct (decide (d = 1)) as [->|Hd1].
  - exists BareScalar. destruct fuel as [|fuel]; [lia|]. cbn [hyperplane_walk].
    rewrite Z.mul_0_l, Z.sub_0_r.
    destruct (Z.ltb_spec (Z.of_nat L) 0) as [?|_]; [lia|].
    erewrite getitem_nat; [|by rewrite list_lookup_fmap, lookup_seq_lt].
    simpl. by rewrite hypersum_dimension_1.
  - exists NegativeIndex. rewrite <- (Z2Nat.id m) at 1 by lia.
    apply hyperplane_walk_layer; lia.
Qed.

(** * The formula and the hypersums agree *)

Lemma formula_matches_hypersums (d m k : Z) (fuel : nat) :
  1 <= d -> 1 <= m -> (Z.to_nat k < fuel)%nat ->
  exists simplex sequence,
    createPascalSimplex k d = Ok simplex
    /\ calculateHypersumsInPascalSimplex fuel simplex m = Ok sequence
    /\ calculateSequence d m k = Ok sequence.
Proof.
  intros Hd Hm Hfuel. eexists _, _.
  split; [by apply createPascalSimplex_spec|].
  split; [by apply calculateHypersums_spec|by apply calculateSequence_spec].
Qed.

Lemma validateFormula_passes (fuel : nat) (maxD maxM maxK : Z) :
  (Z.to_nat maxK <= fuel)%nat ->
  validateFormula fuel maxD maxM maxK = Ok (true, []).
Proof.
  intros Hfuel. unfold validateFormula.
  apply for_each_unchanged. intros d Hd%elem_of_range2.
  apply for_each_unchanged. intros m Hm%elem_of_range2.
  apply for_each_unchanged. intros k Hk%elem_of_range2.
  destruct (formula_matches_hypersums d m k fuel) as (simplex & sequence & Hs & Hh & Hq);
    [lia..|].
  rewrite Hs. cbn [mbind outcome_bind]. rewrite Hh. cbn [mbind outcome_bind].
  rewrite Hq. cbn [mbind outcome_bind].
  rewrite bool_decide_eq_false_2; [done|]. by intros [].
Qed.

(** C1.  For every dimension [d] in [1, 10), slope [m] in [1, 10) and length
    [k] in [1, 18), [calculateSequence(d, m, k)] is the same list as
    [calculateHypersumsInPascalSimplex(createPascalSimplex(k, d), m)], and
    [validateFormula(10, 10, 18)] returns [True] without printing a
    mismatch.  A budget of 18 iterations per layer is enough for the layer
    loops. *)
Theorem validateFormula_10_10_18 (d m k : Z) (fuel : nat) :
  1 <= d < 10 -> 1 <= m < 10 -> 1 <= k < 18 -> (18 <= fuel)%nat ->
  (exists simplex sequence,
      createPascalSimplex k d = Ok simplex
      /\ calculateHypersumsInPascalSimplex fuel simplex m = Ok sequence
      /\ calculateSequence d m k = Ok sequence)
  /\ validateFormula fuel 10 10 18 = Ok (true, []).
Proof.
  intros Hd Hm Hk Hfuel. split.
  - apply formula_matches_hypersums; lia.
  - apply validateFormula_passes. lia.
Qed.

Lemma validateFormula_10_10_18_witness :
  (1 <= 3 < 10 /\ 1 <= 2 < 10 /\ 1 <= 7 < 18 /\ (18 <= 18)%nat)
  /\ (exists simplex sequence,
         createPascalSimplex 7 3 = Ok simplex
         /\ calculateHypersumsInPascalSimplex 18 simplex 2 = Ok sequence
         /\ calculateSequence 3 2 7 = Ok sequence)
  /\ validateFormula 18 10 10 18 = Ok (true, []).
Proof.
  split; [lia|]. apply (validateFormula_10_10_18 3 2 7 18); lia.
Defined.

(** C4.  On a simplex made by [createPascalSimplex(layers, d)] with
    [layers >= 0] and [d >= 1], and with a slope [m >= 1],
    [calculateHypersumsInPascalSimplex] returns: once the budget exceeds the
    number of layers every layer loop has stopped, and the result has one
    entry per layer of the simplex. *)
Theorem hypersums_terminate (layers d m : Z) :
  0 <= layers -> 1 <= d -> 1 <= m ->
  exists simplex,
    createPascalSimplex layers d = Ok simplex
    /\ forall fuel, (length simplex < fuel)%nat ->
         exists res, calculateHypersumsInPascalSimplex fuel simplex m = Ok res
                     /\ length res = length simplex.
Proof.
  intros Hl Hd Hm. eexists. split; [by apply createPascalSimplex_spec|].
  intros fuel Hfuel. apply calculateHypersums_returns. intros L HL.
  apply hyperplane_walk_returns; unfold len; lia.
Qed.

Lemma hypersums_terminate_witness :
  (0 <= 4 /\ 1 <= 3 /\ 1 <= 2)
  /\ exists simplex,
       createPascalSimplex 4 3 = Ok simplex
       /\ forall fuel, (length simplex < fuel)%nat ->
            exists res, calculateHypersumsInPascalSimplex fuel simplex 2 = Ok res
                        /\ length res = length simplex.
Proof.
  split; [lia|]. apply (hypersums_terminate 4 3 2); lia.
Defined.

(** C5.  The scalars of layer [x] of [createPascalSimplex(layers, d)] sum
    to [d ^ x]: [calculate_sum_nested_list] of the layer, or the layer itself
    when [d = 1] and it is a bare scalar. *)
Theorem layer_sum (layers d x : Z) :
  0 <= layers -> 1 <= d -> 0 <= x < layers ->
  exists simplex layer,
    createPascalSimplex layers d = Ok simplex
    /\ getitem simplex x = Ok layer
    /\ element_sum layer = d ^ x.
Proof.
  intros Hl Hd Hx. eexists _, (simplex_layer d (Z.to_nat x)).
  split; [by apply createPascalSimplex_spec|]. split.
  - rewrite <- (Z2Nat.id x) at 1 by lia. apply getitem_nat.
    rewrite list_lookup_fmap, lookup_seq_lt by lia. done.
  - unfold simplex_layer. destruct (Z.eqb_spec d 1) as [->|Hd1].
    + by rewrite Z.pow_1_l by lia.
    + change (element_sum (VList ?l)) with (calculate_sum_nested_list l).
      rewrite (content_sum _ _ _ _ 1) by lia.
      rewrite Z.mul_1_l. f_equal; lia.
Qed.

Lemma layer_sum_witness :
  (0 <= 10 /\ 1 <= 3 /\ 0 <= 4 < 10)
  /\ exists simplex layer,
       createPascalSimplex 10 3 = Ok simplex
       /\ getitem simplex 4 = Ok layer
       /\ element_sum layer = 3 ^ 4.
Proof.
  split; [lia|]. apply (layer_sum 10 3 4); lia.
Defined.

(** C6.  In dimension one every hypersum is [1]: for every slope [m >= 1]
    and length [k >= 0], [calculateSequence(1, m, k)] is [k] ones, and so is
    [calculateHypersumsInPascalSimplex(createPascalSimplex(k, 1), m)], whose
    layer loops leave at the bare scalar in their first iteration. *)
Theorem dimension_one_all_ones (m k : Z) (fuel : nat) :
  1 <= m -> 0 <= k -> (1 <= fuel)%nat ->
  calculateSequence 1 m k = Ok (replicate (Z.to_nat k) 1)
  /\ exists simplex,
       createPascalSimplex k 1 = Ok simplex
       /\ calculateHypersumsInPascalSimplex fuel simplex m = Ok (replicate (Z.to_nat k) 1).
Proof.
  intros Hm Hk Hfuel. split.
  - rewrite calculateSequence_spec, replicate_fmap_seq by done. f_equal.
    apply list_fmap_ext. intros. apply hypersum_dimension_1.
  - exists (replicate (Z.to_nat k) (VInt 1)). split.
    + by rewrite createPascalSimplex_spec, replicate_fmap_seq.
    + by apply calculateHypersums_scalars.
Qed.

Lemma dimension_one_all_ones_witness :
  (1 <= 3 /\ 0 <= 5 /\ (1 <= 1)%nat)
  /\ calculateSequence 1 3 5 = Ok (replicate (Z.to_nat 5) 1)
  /\ exists simplex,
       createPascalSimplex 5 1 = Ok simplex
       /\ calculateHypersumsInPascalSimplex 1 simplex 3 = Ok (replicate (Z.to_nat 5) 1).
Proof.
  split; [lia|]. apply (dimension_one_all_ones 3 5 1); lia.
Defined.

(** C7.  [createPascalSimplex(layers, dimension)] raises [ValueError] for
    every [dimension < 1]; for [dimension >= 1] and [layers == 0] it returns
    the empty simplex, and [calculateSequence(d, m, 0)] is the empty sequence
    for [d >= 1] and [m >= 1]. *)
Theorem boundary_inputs (layers dimension m : Z) :
  (dimension < 1 ->
   createPascalSimplex layers dimension = Raise (ValueError "Dimension must be at least 1."))
  /\ (1 <= dimension ->
      createPascalSimplex 0 dimension = Ok []
      /\ (1 <= m -> calculateSequence dimension m 0 = Ok [])).
Proof.
  split.
  - intros Hd. unfold createPascalSimplex.
    by destruct (Z.ltb_spec dimension 1) as [_|?]; [|lia].
  - intros Hd. split; [by rewrite createPascalSimplex_spec|].
    intros Hm. by rewrite calculateSequence_spec.
Qed.

Lemma boundary_inputs_witness :
  createPascalSimplex 5 0 = Raise (ValueError "Dimension must be at least 1.")
  /\ createPascalSimplex 0 3 = Ok []
  /\ calculateSequence 3 2 0 = Ok [].
Proof.
  split; [apply (boundary_inputs 5 0 2); lia|].
  split; [apply (boundary_inputs 5 3 2); lia|apply (boundary_inputs 5 3 2); lia].
Defined.

(** C9.  On a simplex made by [createPascalSimplex] and with a slope
    [m >= 1], every candidate index [idx = layer - i * m] that is not negative
    satisfies [idx <= layer < len(simplex)], so [simplex[idx]] is in bounds;
    the loop of a layer never leaves through [except IndexError], and with a
    budget above the number of layers it leaves through [idx < 0] or through
    the bare scalar. *)
Theorem index_error_unreachable (layers d m layer : Z) :
  0 <= layers -> 1 <= d -> 1 <= m ->
  exists simplex,
    createPascalSimplex layers d = Ok simplex
    /\ (0 <= layer < len simplex ->
        (forall i, 0 <= i -> 0 <= layer - i * m ->
           layer - i * m <= layer
           /\ exists value, getitem simplex (layer - i * m) = Ok value)
        /\ (forall fuel s ex,
              hyperplane_walk fuel simplex m layer 0 0 = Ok (s, ex) ->
              ex <> IndexOutOfRange)
        /\ (forall fuel, (length simplex < fuel)%nat ->
              exists s ex,
                hyperplane_walk fuel simplex m layer 0 0 = Ok (s, ex)
                /\ (ex = NegativeIndex \/ ex = BareScalar))).
Proof.
  intros Hl Hd Hm. eexists. split; [by apply createPascalSimplex_spec|].
  set (simplex := simplex_layer d <$> seq 0 (Z.to_nat layers)).
  intros Hlayer. split; [|split].
  - intros i Hi Hidx. apply hyperplane_walk_index_in_range; lia.
  - intros fuel s ex. apply hyperplane_walk_no_index_error; lia.
  - intros fuel Hfuel.
    destruct (hyperplane_walk_returns fuel simplex m layer 0 0) as (s & ex & Hwalk);
      [lia|lia|lia|unfold len in Hlayer; lia|].
    exists s, ex. split; [done|].
    apply hyperplane_walk_no_index_error in Hwalk; [|lia..].
    destruct ex; auto. done.
Qed.

Lemma index_error_unreachable_witness :
  (0 <= 5 /\ 1 <= 2 /\ 1 <= 2)
  /\ exists simplex,
       createPascalSimplex 5 2 = Ok simplex
       /\ (0 <= 4 < len simplex ->
           (forall i, 0 <= i -> 0 <= 4 - i * 2 ->
              4 - i * 2 <= 4
              /\ exists value, getitem simplex (4 - i * 2) = Ok value)
           /\ (forall fuel s ex,
                 hyperplane_walk fuel simplex 2 4 0 0 = Ok (s, ex) ->
                 ex <> IndexOutOfRange)
           /\ (forall fuel, (length simplex < fuel)%nat ->
                 exists s ex,
                   hyperplane_walk fuel simplex 2 4 0 0 = Ok (s, ex)
                   /\ (ex = NegativeIndex \/ ex = BareScalar))).
Proof.
  split; [lia|]. apply (index_error_unreachable 5 2 2 4); lia.
Defined.

(** C10.  For [0 <= k <= k'] and [d >= 1], [createPascalSimplex(k, d)] is
    the first [k] layers of [createPascalSimplex(k', d)], although the two
    calls precompute factorial tables of [k] and of [k'] entries. *)
Theorem simplex_prefix (k k' d : Z) :
  0 <= k <= k' -> 1 <= d ->
  exists simplex simplex' fact fact',
    createPascalSimplex k d = Ok simplex
    /\ createPascalSimplex k' d = Ok simplex'
    /\ simplex = take (Z.to_nat k) simplex'
    /\ precompute_factorials k = Ok fact /\ len fact = k
    /\ precompute_factorials k' = Ok fact' /\ len fact' = k'.
Proof.
  intros Hk Hd.
  assert (Hn : exists n n', k = Z.of_nat n /\ k' = Z.of_nat n' /\ (n <= n')%nat).
  { exists (Z.to_nat k), (Z.to_nat k'). lia. }
  destruct Hn as (n & n' & -> & -> & Hn).
  exists (simplex_layer d <$> seq 0 n), (simplex_layer d <$> seq 0 n'),
         (factorial <$> seq 0 n), (factorial <$> seq 0 n').
  rewrite !createPascalSimplex_spec, !precompute_factorials_spec, !Nat2Z.id by done.
  unfold len. rewrite !length_fmap, !length_seq.
  repeat split. rewrite <- fmap_take, take_seq. do 2 f_equal. lia.
Qed.

Lemma simplex_prefix_witness :
  (0 <= 3 <= 6 /\ 1 <= 3)
  /\ exists simplex simplex' fact fact',
       createPascalSimplex 3 3 = Ok simplex
       /\ createPascalSimplex 6 3 = Ok simplex'
       /\ simplex = take (Z.to_nat 3) simplex'
       /\ precompute_factorials 3 = Ok fact /\ len fact = 3
       /\ precompute_factorials 6 = Ok fact' /\ len fact' = 6.
Proof.
  split; [lia|]. apply (simplex_prefix 3 6 3); lia.
Defined.

(** * The slope is not validated *)

(** With slope [0] the index stays at [layer]: on a layer that is a list the
    loop runs through every budget. *)
Lemma hyperplane_walk_slope_zero (fuel : nat) (simplex entries : list value)
    (layer i acc : Z) :
  0 <= i -> getitem simplex layer = Ok (VList entries) -> 0 <= layer ->
  hyperplane_walk fuel simplex 0 layer i acc = OutOfFuel.
Proof.
  intros Hi Hget Hlayer. revert i acc Hi.
  induction fuel as [|fuel IH]; intros i acc Hi; [done|]. cbn [hyperplane_walk].
  rewrite Z.mul_0_r, Z.sub_0_r.
  destruct (Z.ltb_spec layer 0) as [?|_]; [lia|]. rewrite Hget.
  destruct (walk_add_ok entries i acc Hi) as [acc' ->]. cbn [mbind outcome_bind].
  apply IH. lia.
Qed.

Lemma calculateHypersums_slope_zero (fuel : nat) (entries simplex : list value) :
  calculateHypersumsInPascalSimplex fuel (VList entries :: simplex) 0 = OutOfFuel.
Proof.
  unfold calculateHypersumsInPascalSimplex, len. rewrite range_nat.
  cbn [length seq fmap list_fmap for_each].
  by rewrite (hyperplane_walk_slope_zero fuel _ entries).
Qed.

(** C3, counterexample.  With slope [0] on the three layers of dimension one
    the call returns [[1, 1, 1]]; no error is raised. *)
Lemma slope_zero_returns :
  0 < 1
  /\ createPascalSimplex 3 1 = Ok [VInt 1; VInt 1; VInt 1]
  /\ calculateHypersumsInPascalSimplex 1 [VInt 1; VInt 1; VInt 1] 0 = Ok [1; 1; 1]
  /\ ~ exists e, calculateHypersumsInPascalSimplex 1 [VInt 1; VInt 1; VInt 1] 0 = Raise e.
Proof.
  split; [lia|]. split; [reflexivity|]. split; [reflexivity|].
  intros [e He]. vm_compute in He. discriminate He.
Qed.

(** C3, amended.  [calculateHypersumsInPascalSimplex] does not check the
    slope: for [m < 1] no exception is raised, whatever the simplex.  With
    [m < 0] the call returns one sum per layer once the budget exceeds the
    number of layers, and on a simplex of bare scalars it returns all ones
    for every slope. *)
Theorem slope_not_validated (fuel : nat) (simplex : list value) (m : Z) :
  m < 1 ->
  (forall e, calculateHypersumsInPascalSimplex fuel simplex m <> Raise e)
  /\ (m < 0 -> (length simplex < fuel)%nat ->
      exists res, calculateHypersumsInPascalSimplex fuel simplex m = Ok res
                  /\ length res = length simplex)
  /\ (simplex = replicate (length simplex) (VInt 1) -> (1 <= fuel)%nat ->
      calculateHypersumsInPascalSimplex fuel simplex m
      = Ok (replicate (length simplex) 1)).
Proof.
  intros Hm. split; [|split].
  - intros e. apply calculateHypersums_never_raises.
  - intros Hneg Hfuel. apply calculateHypersums_returns. intros L HL.
    apply hyperplane_walk_negative_slope; unfold len; lia.
  - intros -> Hfuel. rewrite length_replicate. by apply calculateHypersums_scalars.
Qed.

Lemma slope_not_validated_witness :
  -2 < 1
  /\ (forall e, calculateHypersumsInPascalSimplex 4
                  [VList [VInt 1]; VList [VInt 1; VInt 1]] (-2) <> Raise e)
  /\ (-2 < 0 -> (length [VList [VInt 1]; VList [VInt 1; VInt 1]] < 4)%nat ->
      exists res, calculateHypersumsInPascalSimplex 4
                    [VList [VInt 1]; VList [VInt 1; VInt 1]] (-2) = Ok res
                  /\ length res = length [VList [VInt 1]; VList [VInt 1; VInt 1]])
  /\ ([VList [VInt 1]; VList [VInt 1; VInt 1]]
      = replicate (length [VList [VInt 1]; VList [VInt 1; VInt 1]]) (VInt 1) ->
      (1 <= 4)%nat ->
      calculateHypersumsInPascalSimplex 4 [VList [VInt 1]; VList [VInt 1; VInt 1]] (-2)
      = Ok (replicate (length [VList [VInt 1]; VList [VInt 1; VInt 1]]) 1)).
Proof.
  split; [lia|].
  apply (slope_not_validated 4 [VList [VInt 1]; VList [VInt 1; VInt 1]] (-2)). lia.
Defined.

(** * The entries are multinomial coefficients *)

Lemma content_lookup (x n r : nat) (fp : Z) (k : nat) :
  (k <= r)%nat ->
  content x n r fp !! (r - k)%nat
  = Some match n with
         | O => VInt (factorial x / (fp * factorial k * factorial (r - k)))
         | S n' => VList (content x n' (r - k) (fp * factorial k))
         end.
Proof.
  intros Hk. destruct n; cbn [content]; rewrite list_lookup_fmap, lookup_rev_seq by lia;
    by replace (S r - 1 - (r - k))%nat with k by lia.
Qed.

Lemma content_lookup_inv (x n r : nat) (fp : Z) (p : nat) (element : value) :
  content x n r fp !! p = Some element -> (p <= r)%nat /\ p = (r - (r - p))%nat.
Proof.
  intros Hp%lookup_lt_Some. rewrite length_content in Hp. lia.
Qed.

(** The scalar at the multi-index [ks]. *)
Lemma content_at_multi_index (x n r : nat) (fp : Z) (ks : list nat) :
  length ks = S n -> (sum_list ks <= r)%nat ->
  lookup_path (VList (content x n r fp)) (positions r ks)
  = Some (VInt (factorial x / factorial_product fp (ks ++ [(r - sum_list ks)%nat]))).
Proof.
  revert r fp ks. induction n as [|n IH]; intros r fp [|k ks] Hlen Hsum; try done;
    cbn [positions lookup_path]; simpl in Hsum; rewrite content_lookup by lia;
    cbn [mbind option_bind].
  - destruct ks; [|done]. simpl. by rewrite Nat.add_0_r.
  - rewrite IH by (simpl in Hlen; lia).
    replace (r - k - sum_list ks)%nat with (r - sum_list (k :: ks))%nat by (simpl; lia).
    done.
Qed.

(** Every scalar sits at the path of a multi-index. *)
Lemma content_scalar_path (x n r : nat) (fp : Z) (path : list nat) (z : Z) :
  lookup_path (VList (content x n r fp)) path = Some (VInt z) ->
  exists ks, length ks = S n /\ (sum_list ks <= r)%nat /\ path = positions r ks.
Proof.
  revert r fp path. induction n as [|n IH]; intros r fp [|p path]; try done;
    cbn [lookup_path]; destruct (content x _ r fp !! p) as [element|] eqn:Hel; try done;
    cbn [mbind option_bind]; pose proof Hel as [Hp Hpeq]%content_lookup_inv;
    rewrite Hpeq, content_lookup in Hel by lia; injection Hel as <-.
  - destruct path; [|done]. intros _. exists [(r - p)%nat]. simpl.
    split; [done|]. split; [lia|]. by rewrite <- Hpeq.
  - intros (ks & Hlen & Hsum & ->)%IH. exists ((r - p)%nat :: ks). simpl.
    split; [lia|]. split; [lia|]. by rewrite <- !Hpeq.
Qed.

Lemma sum_list_snoc (ks : list nat) (k : nat) :
  sum_list (ks ++ [k]) = (sum_list ks + k)%nat.
Proof. rewrite sum_list_with_app. cbn [sum_list_with]. unfold id at 2. lia. Qed.

Lemma div_exact (a b : Z) : 0 < b -> (b | a) -> a / b * b = a.
Proof. intros Hb [q ->]. rewrite Z.div_mul by lia. done. Qed.

(** C2.  Every scalar of [createPascalSimplex(layers, d)] is the multinomial
    coefficient of the multi-index it stands for: in layer [x], the multi-index
    [(k_1, ..., k_{d-1})] with [k_d = x - (k_1 + ... + k_{d-1})] is found at
    the positions of the descending order, it holds
    [x! / (k_1! * ... * k_d!)], the division being exact; and every scalar of
    the layer is found at such a multi-index. *)
Theorem scalars_are_multinomial (layers d : Z) (x : nat) :
  0 <= layers -> 1 <= d -> (x < Z.to_nat layers)%nat ->
  exists simplex layer,
    createPascalSimplex layers d = Ok simplex
    /\ simplex !! x = Some layer
    /\ (forall ks : list nat,
          length ks = Z.to_nat (d - 1) -> (sum_list ks <= x)%nat ->
          let parts := ks ++ [(x - sum_list ks)%nat] in
          exists z,
            lookup_path layer (positions x ks) = Some (VInt z)
            /\ z = factorial x / factorial_product 1 parts
            /\ z * factorial_product 1 parts = factorial x)
    /\ (forall path z,
          lookup_path layer path = Some (VInt z) ->
          exists ks : list nat,
            length ks = Z.to_nat (d - 1) /\ (sum_list ks <= x)%nat
            /\ path = positions x ks).
Proof.
  intros Hl Hd Hx. eexists _, (simplex_layer d x).
  split; [by apply createPascalSimplex_spec|].
  split; [by rewrite list_lookup_fmap, lookup_seq_lt|].
  assert (Hexact : forall ks : list nat, (sum_list ks <= x)%nat ->
    factorial x / factorial_product 1 (ks ++ [(x - sum_list ks)%nat])
    * factorial_product 1 (ks ++ [(x - sum_list ks)%nat]) = factorial x).
  { intros ks Hsum. apply div_exact; [by apply factorial_product_pos|].
    replace x with (sum_list (ks ++ [(x - sum_list ks)%nat])) at 2
      by (rewrite sum_list_snoc; lia).
    apply factorial_product_divide. }
  unfold simplex_layer. destruct (Z.eqb_spec d 1) as [->|Hd1]; split.
  - intros [|??] Hlen Hsum; [|done]. exists 1. split; [done|].
    assert (Hone : factorial x / factorial_product 1 ([] ++ [(x - sum_list [])%nat]) = 1).
    { unfold factorial_product. simpl. rewrite Nat.sub_0_r, Z.mul_1_l.
      apply Z.div_same. pose proof (factorial_pos x). lia. }
    split; [done|]. rewrite <- Hone at 1. by apply Hexact.
  - intros [|??] z; [|done]. intros _. exists []. split; [done|]. split; [simpl; lia|done].
  - intros ks Hlen Hsum. eexists. rewrite content_at_multi_index by lia.
    split; [done|]. split; [done|by apply Hexact].
  - intros path z (ks & Hlen & Hsum & ->)%content_scalar_path.
    exists ks. split; [lia|done].
Qed.

Lemma scalars_are_multinomial_witness :
  (0 <= 5 /\ 1 <= 3 /\ (4 < Z.to_nat 5)%nat)
  /\ exists simplex layer,
       createPascalSimplex 5 3 = Ok simplex
       /\ simplex !! 4%nat = Some layer
       /\ (forall ks : list nat,
             length ks = Z.to_nat (3 - 1) -> (sum_list ks <= 4)%nat ->
             let parts := ks ++ [(4 - sum_list ks)%nat] in
             exists z,
               lookup_path layer (positions 4 ks) = Some (VInt z)
               /\ z = factorial 4 / factorial_product 1 parts
               /\ z * factorial_product 1 parts = factorial 4)
       /\ (forall path z,
             lookup_path layer path = Some (VInt z) ->
             exists ks : list nat,
               length ks = Z.to_nat (3 - 1) /\ (sum_list ks <= 4)%nat
               /\ path = positions 4 ks).
Proof.
  split; [lia|]. apply (scalars_are_multinomial 5 3 4); lia.
Defined.

(** * The divisions are exact *)

(** [while_stack] runs through the states of [iterate_loop], and these are
    [reachable]: the properties of the reachable states hold at every
    iteration that [generate_layer] executes. *)
Lemma while_stack_iterate fact x dim n fuel st :
  while_stack fact x dim (n + fuel) st
  = st' ← iterate_loop fact x dim n st; while_stack fact x dim fuel st'.
Proof.
  revert st. induction n as [|n IH]; intros [h [|fr stack]]; try done.
  - by destruct fuel.
  - cbn [Nat.add while_stack iterate_loop].
    destruct (loop_body fact x dim fr (h, stack)) as [st'| |]; [|done..].
    cbn [mbind outcome_bind]. apply IH.
Qed.

Lemma iterate_loop_reachable fact x dim n st st' :
  reachable fact x dim st ->
  iterate_loop fact x dim n st = Ok st' ->
  reachable fact x dim st'.
Proof.
  revert st. induction n as [|n IH]; intros [h [|fr stack]] Hst; cbn [iterate_loop];
    try by intros [= <-].
  destruct (loop_body fact x dim fr (h, stack)) as [st1| |] eqn:Hbody; [|done..].
  cbn [mbind outcome_bind]. apply IH. by eapply reachable_step.
Qed.

Lemma for_each_preserves {X S : Type} (P : S -> Prop) (xs : list X)
    (body : X -> S -> outcome S) (s s' : S) :
  (forall x t t', x ∈ xs -> P t -> body x t = Ok t' -> P t') ->
  P s -> for_each xs body s = Ok s' -> P s'.
Proof.
  revert s. induction xs as [|x xs IH]; intros s Hbody Hs; simpl; [by intros [= <-]|].
  destruct (body x s) as [t| |] eqn:Hx; simpl; [|done..].
  apply IH; [|by eapply (Hbody x s t); [left|..]].
  intros y u u' Hy. apply Hbody. by right.
Qed.

Lemma elem_of_reversed_range (k n : Z) : k ∈ reversed_range n <-> 0 <= k < n.
Proof.
  unfold reversed_range, range. rewrite list_elem_of_In, <- in_rev, <- list_elem_of_In.
  rewrite elem_of_range2. lia.
Qed.

Section exact_division.

Variables (N x : nat) (dim : Z).
Hypothesis Hx : (x < N)%nat.
Hypothesis Hdim : 2 <= dim.

Local Abbreviation table := (factorial <$> seq 0 N).

Lemma intermediate_body_inv fr k st st' :
  frame_inv x dim fr -> depth fr + 1 <> dim - 1 -> 0 <= k < remaining fr + 1 ->
  Forall (frame_inv x dim) st.2 ->
  intermediate_body table fr k st = Ok st' ->
  Forall (frame_inv x dim) st'.2.
Proof.
  intros (parts & r & Hr & Hfp & Hsum & Hdepth & Hle) Hne Hk Hst.
  destruct st as [h stack]. unfold intermediate_body. cbn [alloc].
  rewrite <- (Z2Nat.id k), (table_lookup N) by lia. cbn [mbind outcome_bind].
  intros [= <-]. cbn [snd]. apply Forall_cons. split; [|done].
  exists (parts ++ [Z.to_nat k]), (r - Z.to_nat k)%nat. cbn [remaining fact_prod depth].
  split; [lia|]. split; [by rewrite factorial_product_app, Hfp|].
  split; [rewrite sum_list_snoc; lia|].
  rewrite length_app. simpl. lia.
Qed.

Lemma reachable_inv st :
  reachable table (Z.of_nat x) dim st -> Forall (frame_inv x dim) st.2.
Proof.
  induction 1 as [|h fr stack st' _ IH Hbody].
  - apply Forall_singleton. exists [], x. cbn. repeat split; lia.
  - cbn [snd] in IH. apply Forall_cons in IH as [Hfr Hstack].
    pose proof Hfr as (parts & r & Hr & Hfp & Hsum & Hdepth & Hle).
    unfold loop_body in Hbody.
    destruct (Z.eqb_spec (depth fr) (dim - 1)) as [?|_]; [lia|].
    destruct (Z.eqb_spec (depth fr + 1) (dim - 1)) as [_|Hne].
    + destruct (for_each _ _ h) as [h'| |]; [|done..].
      injection Hbody as <-. done.
    + eapply (for_each_preserves (fun st => Forall (frame_inv x dim) st.2) _ _ (h, stack));
        [|exact Hstack|exact Hbody].
      intros k t t' Hk%elem_of_reversed_range. by apply intermediate_body_inv.
Qed.

(** The denominator of the penultimate dimension divides [fact[x]], and the
    coefficient that [penultimate_body] appends is the exact quotient. *)
Lemma penultimate_division_exact fr k :
  frame_inv x dim fr -> 0 <= k < remaining fr + 1 ->
  exists f_k f_last f_x,
    getitem table k = Ok f_k
    /\ getitem table (remaining fr - k) = Ok f_last
    /\ getitem table (Z.of_nat x) = Ok f_x
    /\ let denominator := fact_prod fr * f_k * f_last in
       0 < denominator
       /\ f_x mod denominator = 0
       /\ floordiv f_x denominator = Ok (f_x / denominator)
       /\ f_x / denominator * denominator = f_x
       /\ forall h0 : heap,
            exists coeff,
              penultimate_body table (Z.of_nat x) fr k h0
              = Ok (append h0 (current_sublist fr) (Int coeff))
              /\ coeff * denominator = f_x.
Proof.
  intros (parts & r & Hr & Hfp & Hsum & Hdepth & Hle) Hk.
  assert (Hfk : getitem table k = Ok (factorial (Z.to_nat k))).
  { rewrite <- (Z2Nat.id k) at 1 by lia. apply (table_lookup N). lia. }
  assert (Hfl : getitem table (remaining fr - k) = Ok (factorial (r - Z.to_nat k))).
  { replace (remaining fr - k) with (Z.of_nat (r - Z.to_nat k)) by lia.
    apply (table_lookup N). lia. }
  assert (Hfx : getitem table (Z.of_nat x) = Ok (factorial x))
    by (apply (table_lookup N); lia).
  exists (factorial (Z.to_nat k)), (factorial (r - Z.to_nat k)), (factorial x).
  repeat (split; [done|]). cbv zeta.
  set (parts' := parts ++ [Z.to_nat k; (r - Z.to_nat k)%nat]).
  assert (Hden : fact_prod fr * factorial (Z.to_nat k) * factorial (r - Z.to_nat k)
                 = factorial_product 1 parts').
  { unfold parts'. by rewrite factorial_product_app, <- Hfp. }
  assert (Hsum' : sum_list parts' = x).
  { unfold parts'. rewrite sum_list_with_app. cbn [sum_list_with]. unfold id at 2 3. lia. }
  pose proof (factorial_product_divide parts') as Hdiv. rewrite Hsum' in Hdiv.
  pose proof (factorial_product_pos 1 parts' ltac:(lia)) as Hpos.
  assert (Hfloor : floordiv (factorial x) (factorial_product 1 parts')
                   = Ok (factorial x / factorial_product 1 parts')).
  { unfold floordiv. by destruct (Z.eqb_spec (factorial_product 1 parts') 0); [lia|]. }
  rewrite Hden.
  split; [done|]. split; [by apply Z.mod_divide; [lia|]|].
  split; [done|]. split; [by apply div_exact|].
  intros h0. exists (factorial x / factorial_product 1 parts').
  split; [|by apply div_exact].
  unfold penultimate_body. rewrite Hfk. cbn [mbind outcome_bind].
  rewrite Hfl. cbn [mbind outcome_bind]. rewrite Hfx. cbn [mbind outcome_bind].
  by rewrite Hden, Hfloor.
Qed.

End exact_division.

(** C8.  In a call [createPascalSimplex(layers, dimension)] with
    [dimension >= 2], whenever the loop of [generate_layer(x, dimension)]
    reaches an element of the stack, the division of the last dimension is
    not executed ([depth] is below [dimension - 1]); and when the element is in
    the penultimate dimension, for every [k] of its loop the denominator
    [fact_prod * fact[k] * fact[k_last]] is positive and divides [fact[x]]:
    the remainder is zero and the floor division is the exact quotient; the
    body of the loop over [k] raises nothing and the coefficient [coeff] that
    it appends to [current_sublist] satisfies [coeff * denominator = fact[x]]. *)
Theorem division_is_exact (layers dimension x : Z) :
  2 <= dimension -> 0 <= x < layers ->
  exists fact,
    precompute_factorials layers = Ok fact
    /\ forall h fr stack,
         reachable fact x dimension (h, fr :: stack) ->
         depth fr <> dimension - 1
         /\ (depth fr + 1 = dimension - 1 ->
             forall k, k ∈ reversed_range (remaining fr + 1) ->
               exists f_k f_last f_x,
                 getitem fact k = Ok f_k
                 /\ getitem fact (remaining fr - k) = Ok f_last
                 /\ getitem fact x = Ok f_x
                 /\ let denominator := fact_prod fr * f_k * f_last in
                    0 < denominator
                    /\ f_x mod denominator = 0
                    /\ floordiv f_x denominator = Ok (f_x / denominator)
                    /\ f_x / denominator * denominator = f_x
                    /\ forall h0 : heap,
                         exists coeff,
                           penultimate_body fact x fr k h0
                           = Ok (append h0 (current_sublist fr) (Int coeff))
                           /\ coeff * denominator = f_x).
Proof.
  intros Hd Hx.
  assert (Hn : exists N x', layers = Z.of_nat N /\ x = Z.of_nat x' /\ (x' < N)%nat).
  { exists (Z.to_nat layers), (Z.to_nat x). lia. }
  destruct Hn as (N & x' & -> & -> & Hx').
  eexists. split; [apply precompute_factorials_spec|].
  intros h fr stack Hreach%(reachable_inv N x' dimension Hx' Hd).
  cbn [snd] in Hreach. apply Forall_cons in Hreach as [Hfr _]. split.
  - destruct Hfr as (parts & r & _ & _ & _ & _ & Hle). lia.
  - intros _ k Hk%elem_of_reversed_range.
    by apply (penultimate_division_exact N x' dimension Hx').
Qed.

Lemma division_is_exact_witness :
  (2 <= 3 /\ 0 <= 4 < 6)
  /\ exists fact,
       precompute_factorials 6 = Ok fact
       /\ forall h fr stack,
            reachable fact 4 3 (h, fr :: stack) ->
            depth fr <> 3 - 1
            /\ (depth fr + 1 = 3 - 1 ->
                forall k, k ∈ reversed_range (remaining fr + 1) ->
                  exists f_k f_last f_x,
                    getitem fact k = Ok f_k
                    /\ getitem fact (remaining fr - k) = Ok f_last
                    /\ getitem fact 4 = Ok f_x
                    /\ let denominator := fact_prod fr * f_k * f_last in
                       0 < denominator
                       /\ f_x mod denominator = 0
                       /\ floordiv f_x denominator = Ok (f_x / denominator)
                       /\ f_x / denominator * denominator = f_x
                       /\ forall h0 : heap,
                            exists coeff,
                              penultimate_body fact 4 fr k h0
                              = Ok (append h0 (current_sublist fr) (Int coeff))
                              /\ coeff * denominator = f_x).
Proof.
  split; [lia|]. apply (division_is_exact 6 3 4); lia.
Defined.

(** * Properties beyond the claims *)

(** ** The outputs recorded in the earlier notebook *)

Example earlier_tetrahedron_layer_4 :
  (simplex ← Earlier.createPascalSimplex 10 3; getitem simplex 4)
  = Ok (VList [VList [VInt 1; VInt 4; VInt 6; VInt 4; VInt 1];
               VList [VInt 4; VInt 12; VInt 12; VInt 4];
               VList [VInt 6; VInt 12; VInt 6]; VList [VInt 4; VInt 4]; VList [VInt 1]]).
Proof. vm_compute. reflexivity. Qed.

Example earlier_hypersums_tetrahedron_slope_2 :
  (simplex ← Earlier.createPascalSimplex 10 3;
   Earlier.calculateHypersumsInPascalSimplex simplex 2)
  = Ok [1; 2; 4; 9; 20; 44; 97; 214; 472; 1041].
Proof. vm_compute. reflexivity. Qed.

Example earlier_sequence_pell :
  Earlier.calculateSequence 3 1 15
  = Ok [1; 2; 5; 12; 29; 70; 169; 408; 985; 2378; 5741; 13860; 33461; 80782; 195025].
Proof. vm_compute. reflexivity. Qed.

Example earlier_sequence_narayana :
  Earlier.calculateSequence 2 2 15
  = Ok [1; 1; 1; 2; 3; 4; 6; 9; 13; 19; 28; 41; 60; 88; 129].
Proof. vm_compute. reflexivity. Qed.

Example earlier_validate_small : Earlier.validateFormula 4 4 7 = Ok (true, []).
Proof. vm_compute. reflexivity. Qed.

(** ** Induction on nested lists *)

Lemma value_nested_ind (P : value -> Prop) :
  (forall z, P (VInt z)) ->
  (forall l, Forall P l -> P (VList l)) ->
  forall v, P v.
Proof.
  intros Hint Hlist. fix IH 1. intros [z|l]; [apply Hint|].
  apply Hlist. induction l as [|element l IHl]; constructor; [apply IH|apply IHl].
Qed.

Lemma scalar_count_cons (element : value) (l : list value) :
  scalar_count (VList (element :: l)) = scalar_count element + scalar_count (VList l).
Proof. done. Qed.

Lemma scalars_cons (element : value) (l : list value) :
  scalars (VList (element :: l)) = scalars element ++ scalars (VList l).
Proof. done. Qed.

Lemma scalars_app (l1 l2 : list value) :
  scalars (VList (l1 ++ l2)) = scalars (VList l1) ++ scalars (VList l2).
Proof.
  induction l1 as [|element l1 IH]; [done|].
  rewrite <- app_comm_cons, !scalars_cons, IH. by rewrite app_assoc.
Qed.

Lemma mirror_list (l : list value) : mirror (VList l) = VList (rev (mirror <$> l)).
Proof.
  cbn [mirror]. f_equal.
  assert (Hacc : forall acc,
    (fix go (elements acc0 : list value) {struct elements} : list value :=
       match elements with
       | [] => acc0
       | element :: elements' => go elements' (mirror element :: acc0)
       end) l acc = rev (mirror <$> l) ++ acc).
  { induction l as [|element l IH]; intros acc; [done|].
    rewrite IH. cbn [fmap list_fmap rev]. by rewrite <- app_assoc. }
  by rewrite Hacc, app_nil_r.
Qed.

Lemma foldr_add_app (l1 l2 : list Z) :
  foldr Z.add 0 (l1 ++ l2) = foldr Z.add 0 l1 + foldr Z.add 0 l2.
Proof. induction l1 as [|z l1 IH]; simpl; lia. Qed.

Lemma foldr_add_rev (l : list Z) : foldr Z.add 0 (rev l) = foldr Z.add 0 l.
Proof.
  induction l as [|z l IH]; [done|]. simpl. rewrite foldr_add_app, IH. simpl. lia.
Qed.

(** The sum of a nested list is the sum of its scalars. *)
Lemma element_sum_scalars (v : value) : element_sum v = foldr Z.add 0 (scalars v).
Proof.
  induction v as [z|l IH] using value_nested_ind; [simpl; lia|].
  change (element_sum (VList l)) with (calculate_sum_nested_list l).
  induction IH as [|element l Hel _ IHl]; [done|].
  rewrite calculate_sum_nested_list_cons, scalars_cons, foldr_add_app, Hel.
  f_equal. apply IHl.
Qed.

Lemma scalars_mirror (v : value) : scalars (mirror v) = rev (scalars v).
Proof.
  induction v as [z|l IH] using value_nested_ind; [done|].
  rewrite mirror_list. induction IH as [|element l Hel _ IHl]; [done|].
  cbn [fmap list_fmap rev].
  rewrite scalars_app, IHl, (scalars_cons element l), rev_app_distr. f_equal.
  rewrite (scalars_cons (mirror element) []), Hel. cbn [scalars]. by rewrite app_nil_r.
Qed.

Lemma element_sum_mirror (v : value) : element_sum (mirror v) = element_sum v.
Proof. by rewrite !element_sum_scalars, scalars_mirror, foldr_add_rev. Qed.

Lemma scalar_count_length (v : value) : scalar_count v = Z.of_nat (length (scalars v)).
Proof.
  induction v as [z|l IH] using value_nested_ind; [done|].
  induction IH as [|element l Hel _ IHl]; [done|].
  rewrite scalar_count_cons, scalars_cons, length_app, Hel, IHl. lia.
Qed.

(** ** [calculate_sum_nested_list] adds up the scalars *)

(** X1.  [calculate_sum_nested_list] returns the sum of all the scalars of
    the nested list, whatever the nesting, and the sum of a concatenation is
    the sum of the two sums. *)
Theorem nested_sum_is_sum_of_scalars (l1 l2 : list value) :
  calculate_sum_nested_list l1 = foldr Z.add 0 (scalars (VList l1))
  /\ calculate_sum_nested_list (l1 ++ l2)
     = calculate_sum_nested_list l1 + calculate_sum_nested_list l2.
Proof.
  split; [apply (element_sum_scalars (VList l1))|].
  unfold calculate_sum_nested_list.
  by rewrite !element_sum_scalars, scalars_app, foldr_add_app.
Qed.

(** ** The shape of a simplex *)

(** X2.  For [dimension >= 1], [createPascalSimplex(layers, dimension)]
    returns [max(layers, 0)] layers (none for a negative count); in dimension
    one every layer is the scalar [1], and otherwise layer [x] is a list of
    [x + 1] entries. *)
Theorem simplex_shape (layers dimension : Z) :
  1 <= dimension ->
  exists simplex,
    createPascalSimplex layers dimension = Ok simplex
    /\ len simplex = Z.max 0 layers
    /\ forall (x : nat) (layer : value),
         simplex !! x = Some layer ->
         if dimension =? 1 then layer = VInt 1
         else exists entries, layer = VList entries /\ length entries = S x.
Proof.
  intros Hd. eexists. split; [by apply createPascalSimplex_spec|].
  split; [unfold len; rewrite length_fmap, length_seq; lia|].
  intros x layer [x' [-> [-> _]%lookup_seq]]%list_lookup_fmap_Some.
  unfold simplex_layer. destruct (dimension =? 1); [done|].
  eexists. split; [done|]. by rewrite length_content.
Qed.

Lemma simplex_shape_witness :
  1 <= 3
  /\ exists simplex,
       createPascalSimplex 4 3 = Ok simplex
       /\ len simplex = Z.max 0 4
       /\ forall (x : nat) (layer : value),
            simplex !! x = Some layer ->
            if 3 =? 1 then layer = VInt 1
            else exists entries, layer = VList entries /\ length entries = S x.
Proof.
  split; [lia|]. apply (simplex_shape 4 3). lia.
Defined.

Lemma choose_diag (n : nat) : choose n n = 1.
Proof.
  induction n as [|n IH]; [done|]. rewrite choose_succ, IH, choose_gt by lia. done.
Qed.

Lemma choose_pos (n k : nat) : (k <= n)%nat -> 1 <= choose n k.
Proof.
  intros Hk. pose proof (choose_factorial n k Hk) as Hc.
  pose proof (choose_nonneg n k). pose proof (factorial_pos n).
  destruct (decide (choose n k = 0)) as [Hz|?]; [|lia]. rewrite Hz in Hc. lia.
Qed.

(** The hockey-stick identity. *)
Lemma choose_hockey_stick (j r : nat) :
  zsum (fun k => choose (r - k + j) j) (S r) = choose (r + j + 1) (j + 1).
Proof.
  induction r as [|r IH].
  - simpl zsum. replace (0 - 0 + j)%nat with j by lia.
    replace (0 + j + 1)%nat with (j + 1)%nat by lia. rewrite !choose_diag. lia.
  - rewrite zsum_shift. cbn beta.
    rewrite (zsum_ext _ (fun k => choose (r - k + j) j)) by done.
    rewrite IH. replace (S r - 0 + j)%nat with (S r + j)%nat by lia.
    replace (S r + j + 1)%nat with (S (S r + j)) by lia.
    replace (j + 1)%nat with (S j) by lia. rewrite choose_succ.
    replace (r + j + 1)%nat with (S r + j)%nat by lia. done.
Qed.

Lemma scalar_count_rev_seq (g : nat -> value) (n : nat) :
  scalar_count (VList (g <$> rev (seq 0 n))) = zsum (fun k => scalar_count (g k)) n.
Proof.
  induction n as [|n IH]; [done|].
  rewrite rev_seq_S, fmap_cons, scalar_count_cons, IH. simpl. lia.
Qed.

Lemma content_scalar_count (x n r : nat) (fp : Z) :
  scalar_count (VList (content x n r fp)) = choose (r + n + 1) (n + 1).
Proof.
  revert r fp. induction n as [|n IH]; intros r fp; cbn [content];
    rewrite scalar_count_rev_seq.
  - rewrite <- (choose_hockey_stick 0 r). apply zsum_ext. intros k _.
    by rewrite choose_0_r.
  - rewrite <- (choose_hockey_stick (S n) r). apply zsum_ext. intros k _.
    rewrite IH. f_equal; lia.
Qed.

(** X3.  Layer [x] of [createPascalSimplex(layers, d)] holds
    [C(x + d - 1, d - 1)] scalars, the number of ways to write [x] as an
    ordered sum of [d] parts. *)
Theorem layer_scalar_count (layers d : Z) (x : nat) :
  1 <= d -> (x < Z.to_nat layers)%nat ->
  exists simplex layer,
    createPascalSimplex layers d = Ok simplex
    /\ simplex !! x = Some layer
    /\ scalar_count layer = choose (x + Z.to_nat (d - 1)) (Z.to_nat (d - 1)).
Proof.
  intros Hd Hx. eexists _, (simplex_layer d x).
  split; [by apply createPascalSimplex_spec|].
  split; [by rewrite list_lookup_fmap, lookup_seq_lt|].
  unfold simplex_layer. destruct (Z.eqb_spec d 1) as [->|Hd1].
  - by rewrite choose_0_r.
  - rewrite content_scalar_count. f_equal; lia.
Qed.

Lemma layer_scalar_count_witness :
  (1 <= 3 /\ (4 < Z.to_nat 6)%nat)
  /\ exists simplex layer,
       createPascalSimplex 6 3 = Ok simplex
       /\ simplex !! 4%nat = Some layer
       /\ scalar_count layer = choose (4 + Z.to_nat (3 - 1)) (Z.to_nat (3 - 1)).
Proof.
  split; [lia|]. apply (layer_scalar_count 6 3 4); lia.
Defined.

Lemma scalars_rev_seq_forall (P : Z -> Prop) (g : nat -> value) (n : nat) :
  (forall k, (k < n)%nat -> Forall P (scalars (g k))) ->
  Forall P (scalars (VList (g <$> rev (seq 0 n)))).
Proof.
  induction n as [|n IH]; intros Hg; [constructor|].
  rewrite rev_seq_S, fmap_cons, scalars_cons. apply Forall_app. split; [apply Hg; lia|].
  apply IH. intros. apply Hg. lia.
Qed.

Lemma content_scalars_positive (x n r : nat) (fp c : Z) :
  0 < fp -> 1 <= c -> factorial x = c * (fp * factorial r) ->
  Forall (fun z => 1 <= z) (scalars (VList (content x n r fp))).
Proof.
  revert r fp c. induction n as [|n IH]; intros r fp c Hfp Hc Hx; cbn [content];
    apply scalars_rev_seq_forall; intros k Hk;
    pose proof (factorial_pos k); pose proof (factorial_pos (r - k));
    pose proof (choose_pos r k ltac:(lia)).
  - cbn [scalars]. apply Forall_singleton.
    rewrite Hx, <- (choose_factorial r k) by lia.
    replace (c * (fp * (choose r k * (factorial k * factorial (r - k)))))
      with (c * choose r k * (fp * factorial k * factorial (r - k))) by ring.
    rewrite Z.div_mul by nia. nia.
  - apply (IH _ _ (c * choose r k)); [nia|nia|].
    rewrite Hx, <- (choose_factorial r k) by lia. ring.
Qed.

(** X4.  Every scalar of [createPascalSimplex(layers, d)] is at least [1]:
    no coefficient is lost to the floor division. *)
Theorem scalars_positive (layers d : Z) (x : nat) :
  1 <= d -> (x < Z.to_nat layers)%nat ->
  exists simplex layer,
    createPascalSimplex layers d = Ok simplex
    /\ simplex !! x = Some layer
    /\ Forall (fun z => 1 <= z) (scalars layer).
Proof.
  intros Hd Hx. eexists _, (simplex_layer d x).
  split; [by apply createPascalSimplex_spec|].
  split; [by rewrite list_lookup_fmap, lookup_seq_lt|].
  unfold simplex_layer. destruct (Z.eqb_spec d 1) as [->|Hd1].
  - by apply Forall_singleton.
  - apply (content_scalars_positive _ _ _ _ 1); lia.
Qed.

Lemma scalars_positive_witness :
  (1 <= 4 /\ (3 < Z.to_nat 5)%nat)
  /\ exists simplex layer,
       createPascalSimplex 5 4 = Ok simplex
       /\ simplex !! 3%nat = Some layer
       /\ Forall (fun z => 1 <= z) (scalars layer).
Proof.
  split; [lia|]. apply (scalars_positive 5 4 3); lia.
Defined.

(** X5.  In dimension two the simplex is Pascal's triangle: row [x] is
    [C(x, 0), ..., C(x, x)], where every row starts and ends with [1] and
    [C(n+1, k+1) = C(n, k) + C(n, k+1)]: an inner entry is the sum of the two
    entries above it. *)
Theorem pascal_triangle (layers : Z) :
  createPascalSimplex layers 2
  = Ok ((fun x => VList ((fun i => VInt (choose x i)) <$> seq 0 (S x)))
          <$> seq 0 (Z.to_nat layers))
  /\ (forall n, choose n 0 = 1 /\ choose n n = 1)
  /\ (forall n k, choose (S n) (S k) = choose n k + choose n (S k)).
Proof.
  split; [|split; [intros n; split; [apply choose_0_r|apply choose_diag]|done]].
  rewrite createPascalSimplex_spec by lia. f_equal.
  apply list_fmap_ext. intros _ x _. unfold simplex_layer.
  change (2 =? 1) with false. change (Z.to_nat (2 - 2)) with 0%nat. cbn [content]. f_equal.
  apply list_eq. intros i. rewrite !list_lookup_fmap.
  destruct (decide (i <= x)%nat) as [Hi|Hi].
  - rewrite lookup_rev_seq, lookup_seq_lt by lia. cbn [fmap option_fmap option_map].
    replace (S x - 1 - i)%nat with (x - i)%nat by lia.
    replace (x - (x - i))%nat with i by lia. simpl (0 + i)%nat. do 2 f_equal.
    rewrite <- (choose_factorial x i) at 1 by lia.
    replace (1 * factorial (x - i) * factorial i) with (factorial i * factorial (x - i)) by ring.
    apply Z.div_mul. pose proof (factorial_pos i). pose proof (factorial_pos (x - i)). nia.
  - rewrite lookup_seq_ge by lia. rewrite (lookup_ge_None_2 (rev _)); [done|].
    rewrite length_rev, length_seq. lia.
Qed.

(** ** The formula in general *)

(** X6.  For every dimension [d >= 1], slope [m >= 1] and length [k],
    [calculateSequence(d, m, k)] and
    [calculateHypersumsInPascalSimplex(createPascalSimplex(k, d), m)] return
    the same list, whose entry [L] is the sum of
    [C(L - i*m, i) * (d - 1) ^ i] over the steps [i] of the walk. *)
Theorem hypersums_closed_form (d m k : Z) (fuel : nat) :
  1 <= d -> 1 <= m -> (Z.to_nat k < fuel)%nat ->
  let closed_form (L : nat) :=
    zsum (fun i => choose (L - i * Z.to_nat m) i * (d - 1) ^ Z.of_nat i) (S L) in
  exists simplex,
    createPascalSimplex k d = Ok simplex
    /\ calculateHypersumsInPascalSimplex fuel simplex m
       = Ok (closed_form <$> seq 0 (Z.to_nat k))
    /\ calculateSequence d m k = Ok (closed_form <$> seq 0 (Z.to_nat k)).
Proof.
  intros Hd Hm Hfuel closed_form. eexists.
  split; [by apply createPascalSimplex_spec|].
  split; [by apply calculateHypersums_spec|by apply calculateSequence_spec].
Qed.

Lemma hypersums_closed_form_witness :
  (1 <= 3 /\ 1 <= 2 /\ (Z.to_nat 6 < 7)%nat)
  /\ let closed_form (L : nat) :=
       zsum (fun i => choose (L - i * Z.to_nat 2) i * (3 - 1) ^ Z.of_nat i) (S L) in
     exists simplex,
       createPascalSimplex 6 3 = Ok simplex
       /\ calculateHypersumsInPascalSimplex 7 simplex 2
          = Ok (closed_form <$> seq 0 (Z.to_nat 6))
       /\ calculateSequence 3 2 6 = Ok (closed_form <$> seq 0 (Z.to_nat 6)).
Proof.
  split; [lia|]. apply (hypersums_closed_form 3 2 6 7); lia.
Defined.

(** X7.  [validateFormula(maxD, maxM, maxK)] returns [True] and prints no
    mismatch for all bounds, once the budget of the layer loops is at least
    [maxK]. *)
Theorem validateFormula_all_bounds (fuel : nat) (maxD maxM maxK : Z) :
  (Z.to_nat maxK <= fuel)%nat ->
  validateFormula fuel maxD maxM maxK = Ok (true, []).
Proof.
  intros Hfuel. unfold validateFormula.
  apply for_each_unchanged. intros d Hd%elem_of_range2.
  apply for_each_unchanged. intros m Hm%elem_of_range2.
  apply for_each_unchanged. intros k Hk%elem_of_range2.
  rewrite createPascalSimplex_spec by lia. cbn [mbind outcome_bind].
  rewrite calculateHypersums_spec by lia. cbn [mbind outcome_bind].
  rewrite calculateSequence_spec by lia. cbn [mbind outcome_bind].
  rewrite bool_decide_eq_false_2; [done|]. by intros [].
Qed.

Lemma validateFormula_all_bounds_witness :
  (Z.to_nat 40 <= 40)%nat /\ validateFormula 40 25 30 40 = Ok (true, []).
Proof.
  split; [lia|]. apply (validateFormula_all_bounds 40 25 30 40). lia.
Defined.

(** ** [calculateSequence] at and beyond its supported slopes *)

Lemma for_each_append {X A : Type} (xs : list X) (f : X -> A) (res : list A) :
  for_each xs (fun i res => Ok (res ++ [f i])) res = Ok (res ++ (f <$> xs)).
Proof.
  revert res. induction xs as [|x xs IH]; intros res; cbn [for_each fmap list_fmap].
  - by rewrite app_nil_r.
  - cbn [mbind outcome_bind]. by rewrite IH, <- app_assoc.
Qed.

Lemma fmap_constant {X A : Type} (a : A) (xs : list X) :
  (fun _ => a) <$> xs = replicate (length xs) a.
Proof. induction xs as [|x xs IH]; [done|]. cbn [fmap list_fmap length replicate]. by f_equal. Qed.

Lemma length_range (n : Z) : length (range n) = Z.to_nat n.
Proof. by rewrite range_to_nat, length_fmap, length_seq. Qed.

Lemma range2_cons (a b : Z) : a < b -> range2 a b = a :: range2 (a + 1) b.
Proof.
  intros Hab. rewrite !range2_to_nat.
  replace (Z.to_nat (b - a)) with (S (Z.to_nat (b - (a + 1)))) by lia.
  cbn [seq fmap list_fmap]. f_equal; [lia|].
  rewrite <- fmap_S_seq, <- list_fmap_compose. apply list_fmap_ext. intros; simpl; lia.
Qed.

(** X8.  For a slope [m >= 0], [calculateSequence(d, m, k)] raises nothing
    and returns [max(k, 0)] terms, of which those up to index [m] are [1]. *)
Theorem calculateSequence_length (dimension m k : Z) :
  0 <= m ->
  exists res,
    calculateSequence dimension m k = Ok res
    /\ len res = Z.max 0 k
    /\ forall (n : nat) (a : Z), res !! n = Some a -> Z.of_nat n <= m -> a = 1.
Proof.
  intros Hm. unfold calculateSequence.
  rewrite (for_each_append _ (fun _ => 1) []), app_nil_l. cbn [mbind outcome_bind].
  rewrite fmap_constant, length_range.
  set (n1 := Z.to_nat (Z.min k (m + 1))).
  rewrite range2_to_nat.
  match goal with
  | |- exists res, for_each ?xs ?body ?s = _ /\ _ =>
      destruct (for_each_invariant
        (fun j (res : list Z) =>
           length res = (n1 + j)%nat /\ take n1 res = replicate n1 1) xs body s)
        as (res & Hres & Hlen & Htake)
  end.
  - split; [by rewrite length_replicate, Nat.add_0_r|].
    apply take_ge. by rewrite length_replicate.
  - intros j i res [j' [-> [-> Hj]%lookup_seq]]%list_lookup_fmap_Some [Hlen Htake].
    simpl (0 + j)%nat.
    destruct (getitem_in_range res (m + 1 + Z.of_nat j - 1)) as (a & _ & ->);
      [unfold len; lia|].
    destruct (getitem_in_range res (m + 1 + Z.of_nat j - (m + 1))) as (b & _ & ->);
      [unfold len; lia|].
    cbn [mbind outcome_bind]. eexists. split; [done|].
    rewrite length_app, Hlen. simpl. split; [lia|].
    by rewrite take_app_le by lia.
  - exists res. split; [done|]. rewrite length_fmap, length_seq in Hlen.
    split; [unfold len; lia|].
    intros n a Hn Hnm. destruct (decide (n < n1)%nat) as [Hlt|Hge].
    + rewrite <- (lookup_take_lt _ n1), Htake in Hn by done.
      by apply lookup_replicate in Hn as [-> _].
    + apply lookup_lt_Some in Hn. lia.
Qed.

Lemma calculateSequence_length_witness :
  0 <= 0
  /\ exists res,
       calculateSequence 3 0 5 = Ok res
       /\ len res = Z.max 0 5
       /\ forall (n : nat) (a : Z), res !! n = Some a -> Z.of_nat n <= 0 -> a = 1.
Proof.
  split; [lia|]. apply (calculateSequence_length 3 0 5). lia.
Defined.

(** X9.  With slope [0] the recurrence multiplies by the dimension:
    [calculateSequence(d, 0, k)] is [1, d, d^2, ..., d^(k-1)]. *)
Theorem calculateSequence_slope_zero (dimension k : Z) :
  calculateSequence dimension 0 k
  = Ok ((fun n => dimension ^ Z.of_nat n) <$> seq 0 (Z.to_nat k)).
Proof.
  unfold calculateSequence.
  rewrite (for_each_append _ (fun _ => 1) []), app_nil_l. cbn [mbind outcome_bind].
  rewrite fmap_constant, length_range, range2_to_nat, for_each_map.
  set (n1 := Z.to_nat (Z.min k (0 + 1))).
  assert (Hbase : replicate n1 1 = (fun n => dimension ^ Z.of_nat n) <$> seq 0 n1).
  { assert (Hn1 : (n1 <= 1)%nat) by lia. clearbody n1. by destruct n1 as [|[|?]]; [..|lia]. }
  match goal with
  | |- for_each ?xs ?body ?s = _ =>
      destruct (for_each_invariant
        (fun j (res : list Z) =>
           res = (fun n => dimension ^ Z.of_nat n) <$> seq 0 (n1 + j)) xs body s)
        as (res & -> & ->)
  end.
  - by rewrite Nat.add_0_r.
  - intros j i res [-> Hj]%lookup_seq ->. simpl (0 + j)%nat.
    assert (Hn1 : n1 = 1%nat) by lia. rewrite Hn1.
    replace (0 + 1 + Z.of_nat j - 1) with (Z.of_nat j) by lia.
    replace (0 + 1 + Z.of_nat j - (0 + 1)) with (Z.of_nat j) by lia.
    rewrite (getitem_nat _ j (dimension ^ Z.of_nat j))
      by (rewrite list_lookup_fmap, lookup_seq_lt by lia; done).
    cbn [mbind outcome_bind]. eexists. split; [done|].
    replace (1 + S j)%nat with (S (1 + j)) by lia. rewrite (seq_S (1 + j)), fmap_app.
    cbn [fmap list_fmap]. do 2 f_equal.
    change (0 + (1 + j))%nat with (S j). rewrite pow_succ_nat. ring.
  - rewrite length_seq. do 3 f_equal. lia.
Qed.

Lemma for_each_ext_body {X S : Type} (xs : list X) (body body' : X -> S -> outcome S) s :
  (forall x t, body x t = body' x t) -> for_each xs body s = for_each xs body' s.
Proof.
  intros Hb. revert s. induction xs as [|x xs IH]; intros s; [done|].
  cbn [for_each]. rewrite Hb. destruct (body' x s); cbn [mbind outcome_bind]; auto.
Qed.

Lemma getitem_nil {A : Type} (i : Z) : getitem (@nil A) i = Raise IndexError.
Proof. unfold getitem. by repeat case_match. Qed.

(** X10.  With a slope [m < 0] the first loop appends nothing, so
    [calculateSequence(d, m, k)] returns the empty list when [k <= m + 1] and
    raises [IndexError] at [res[i - 1]] otherwise. *)
Theorem calculateSequence_negative_slope (dimension m k : Z) :
  m < 0 ->
  calculateSequence dimension m k
  = if k <=? m + 1 then Ok [] else Raise IndexError.
Proof.
  intros Hm. unfold calculateSequence.
  rewrite range_nonpos by lia. cbn [for_each mbind outcome_bind].
  destruct (Z.leb_spec k (m + 1)) as [Hk|Hk].
  - by rewrite range2_empty.
  - rewrite range2_cons by lia. cbn [for_each].
    by rewrite !getitem_nil.
Qed.

Lemma calculateSequence_negative_slope_witness :
  -2 < 0
  /\ calculateSequence 3 (-2) 4 = (if 4 <=? -2 + 1 then Ok [] else Raise IndexError).
Proof.
  split; [lia|]. apply (calculateSequence_negative_slope 3 (-2) 4). lia.
Defined.

(** X11.  A shorter sequence is a prefix of a longer one: for [m >= 1] and
    [k <= k'], [calculateSequence(d, m, k)] is the first [k] terms of
    [calculateSequence(d, m, k')]. *)
Theorem calculateSequence_prefix (dimension m k k' : Z) :
  1 <= m -> k <= k' ->
  exists res res',
    calculateSequence dimension m k = Ok res
    /\ calculateSequence dimension m k' = Ok res'
    /\ res = take (Z.to_nat k) res'.
Proof.
  intros Hm Hk. eexists _, _.
  split; [by apply calculateSequence_spec|]. split; [by apply calculateSequence_spec|].
  rewrite <- fmap_take, take_seq. do 2 f_equal. lia.
Qed.

Lemma calculateSequence_prefix_witness :
  (1 <= 2 /\ 4 <= 9)
  /\ exists res res',
       calculateSequence 3 2 4 = Ok res
       /\ calculateSequence 3 2 9 = Ok res'
       /\ res = take (Z.to_nat 4) res'.
Proof.
  split; [lia|]. apply (calculateSequence_prefix 3 2 4 9); lia.
Defined.

Lemma hypersum_fibonacci (L : nat) : hypersum 1 1 L = fibonacci L.
Proof.
  induction L as [L IH] using lt_wf_ind.
  destruct L as [|[|L]]; [by rewrite hypersum_initial by lia..|].
  rewrite hypersum_recurrence by lia.
  replace (S (S L) - 1)%nat with (S L) by lia.
  replace (S (S L) - (1 + 1))%nat with L by lia.
  rewrite !IH by lia. cbn [fibonacci]. lia.
Qed.

(** X12.  Dimension two with slope one gives the Fibonacci numbers: for every
    length [k], both [calculateSequence(2, 1, k)] and the hypersums of
    Pascal's triangle [createPascalSimplex(k, 2)] are [1, 1, 2, 3, 5, ...]. *)
Theorem fibonacci_from_triangle (k : Z) (fuel : nat) :
  (Z.to_nat k < fuel)%nat ->
  calculateSequence 2 1 k = Ok (fibonacci <$> seq 0 (Z.to_nat k))
  /\ exists simplex,
       createPascalSimplex k 2 = Ok simplex
       /\ calculateHypersumsInPascalSimplex fuel simplex 1
          = Ok (fibonacci <$> seq 0 (Z.to_nat k)).
Proof.
  intros Hfuel.
  assert (Hfib : hypersum (2 - 1) (Z.to_nat 1) <$> seq 0 (Z.to_nat k)
                 = fibonacci <$> seq 0 (Z.to_nat k)).
  { apply list_fmap_ext. intros _ L _. apply hypersum_fibonacci. }
  split; [by rewrite calculateSequence_spec, Hfib|].
  eexists. split; [by apply createPascalSimplex_spec|].
  by rewrite calculateHypersums_spec, Hfib.
Qed.

Lemma fibonacci_from_triangle_witness :
  (Z.to_nat 12 < 13)%nat
  /\ calculateSequence 2 1 12 = Ok (fibonacci <$> seq 0 (Z.to_nat 12))
  /\ exists simplex,
       createPascalSimplex 12 2 = Ok simplex
       /\ calculateHypersumsInPascalSimplex 13 simplex 1
          = Ok (fibonacci <$> seq 0 (Z.to_nat 12)).
Proof.
  split; [lia|]. apply (fibonacci_from_triangle 12 13). lia.
Defined.

Lemma hypersum_lower_bound (c : Z) (m L : nat) :
  0 <= c -> (1 <= m)%nat -> 1 <= hypersum c m L.
Proof.
  intros Hc Hm. induction L as [L IH] using lt_wf_ind.
  destruct (decide (L <= m)%nat) as [Hle|Hgt]; [by rewrite hypersum_initial|].
  rewrite hypersum_recurrence by lia.
  pose proof (IH (L - 1)%nat ltac:(lia)). pose proof (IH (L - (m + 1))%nat ltac:(lia)). nia.
Qed.

Lemma hypersum_monotone (c : Z) (m L : nat) :
  0 <= c -> (1 <= m)%nat -> hypersum c m L <= hypersum c m (S L).
Proof.
  intros Hc Hm. destruct (decide (S L <= m)%nat) as [Hle|Hgt].
  - by rewrite !hypersum_initial by lia.
  - rewrite (hypersum_recurrence c m (S L)) by lia.
    replace (S L - 1)%nat with L by lia.
    pose proof (hypersum_lower_bound c m (S L - (m + 1)) Hc Hm). nia.
Qed.

(** X13.  For [d >= 1] and [m >= 1] the terms of [calculateSequence(d, m, k)]
    are at least [1] and never decrease. *)
Theorem calculateSequence_monotone (dimension m k : Z) :
  1 <= dimension -> 1 <= m ->
  exists res,
    calculateSequence dimension m k = Ok res
    /\ forall (n : nat) (a : Z),
         res !! n = Some a ->
         1 <= a /\ forall b, res !! S n = Some b -> a <= b.
Proof.
  intros Hd Hm. eexists. split; [by apply calculateSequence_spec|].
  intros n a [n' [-> [-> _]%lookup_seq]]%list_lookup_fmap_Some. simpl (0 + n)%nat.
  split; [apply hypersum_lower_bound; lia|].
  intros b [n' [-> [-> _]%lookup_seq]]%list_lookup_fmap_Some.
  apply hypersum_monotone; lia.
Qed.

Lemma calculateSequence_monotone_witness :
  (1 <= 4 /\ 1 <= 3)
  /\ exists res,
       calculateSequence 4 3 10 = Ok res
       /\ forall (n : nat) (a : Z),
            res !! n = Some a ->
            1 <= a /\ forall b, res !! S n = Some b -> a <= b.
Proof.
  split; [lia|]. apply (calculateSequence_monotone 4 3 10); lia.
Defined.

(** ** Slope zero on a simplex of lists *)

(** X14.  With slope [0] on a simplex of dimension [d >= 2] with at least one
    layer, [calculateHypersumsInPascalSimplex] does not return: the index
    stays at the layer, which is a list, so the loop of layer [0] is still
    running after every number of iterations. *)
Theorem slope_zero_never_returns (layers d : Z) (fuel : nat) :
  1 <= layers -> 2 <= d ->
  exists simplex,
    createPascalSimplex layers d = Ok simplex
    /\ calculateHypersumsInPascalSimplex fuel simplex 0 = OutOfFuel.
Proof.
  intros Hl Hd. eexists. split; [apply createPascalSimplex_spec; lia|].
  replace (Z.to_nat layers) with (S (Z.to_nat (layers - 1))) by lia.
  cbn [seq fmap list_fmap]. unfold simplex_layer at 1.
  destruct (Z.eqb_spec d 1) as [?|_]; [lia|]. apply calculateHypersums_slope_zero.
Qed.

Lemma slope_zero_never_returns_witness :
  (1 <= 3 /\ 2 <= 2)
  /\ exists simplex,
       createPascalSimplex 3 2 = Ok simplex
       /\ calculateHypersumsInPascalSimplex 50 simplex 0 = OutOfFuel.
Proof.
  split; [lia|]. apply (slope_zero_never_returns 3 2 50); lia.
Defined.

(** * The earlier notebook *)

(** ** [calculateNumberOfPlainElements] *)

Lemma earlier_plain_elements_seq (n M : nat) :
  exists seq : list Z,
    for_each (range2 0 (Z.of_nat n))
      (fun i (st : Z * list Z) =>
         let c := st.1 + 1 in
         seq ← for_each (range2 0 (Z.of_nat M)) (fun j seq => Ok (seq ++ [c])) st.2;
         Ok (c, seq))
      (0, []) = Ok (Z.of_nat n, seq)
    /\ length seq = (n * M)%nat
    /\ forall j, (j < n * M)%nat -> seq !! j = Some (Z.of_nat (j / M) + 1).
Proof.
  match goal with
  | |- exists seq, for_each ?xs ?body ?s = _ /\ _ =>
      destruct (for_each_invariant
        (fun t (st : Z * list Z) =>
           st.1 = Z.of_nat t /\ length st.2 = (t * M)%nat
           /\ forall j, (j < t * M)%nat -> st.2 !! j = Some (Z.of_nat (j / M) + 1))
        xs body s) as ([c seq] & Hrun & Hc & Hlen & Hseq)
  end.
  - split; [done|]. split; [done|]. intros j Hj. lia.
  - intros t i [c seq] _ (Hc & Hlen & Hseq). cbn [fst snd] in *. cbv zeta.
    rewrite (for_each_append _ (fun _ => c + 1)), fmap_constant.
    cbn [mbind outcome_bind]. eexists. split; [done|]. cbn [fst snd].
    rewrite range2_to_nat, length_fmap, length_seq, Z.sub_0_r, Nat2Z.id.
    split; [lia|]. split; [rewrite length_app, length_replicate; lia|].
    intros j Hj. destruct (decide (j < t * M)%nat) as [Hlt|Hge].
    + rewrite lookup_app_l by lia. by apply Hseq.
    + rewrite lookup_app_r, lookup_replicate_2 by lia. do 2 f_equal.
      assert (Hdiv : (j / M = t)%nat); [|lia].
      symmetry. apply (Nat.div_unique j M t (j - t * M)); lia.
  - cbn [fst snd] in *. subst c. exists seq.
    rewrite range2_to_nat, length_fmap, length_seq, Z.sub_0_r, Nat2Z.id in *. done.
Qed.

(** The three outcomes of [calculateNumberOfPlainElements]. *)
Lemma calculateNumberOfPlainElements_cases (layer m : Z) :
  Earlier.calculateNumberOfPlainElements layer m
  = if layer =? 0 then Ok 1
    else if (0 <? layer) && (2 <=? m) then Ok (layer / m + 1)
    else Raise IndexError.
Proof.
  unfold Earlier.calculateNumberOfPlainElements.
  destruct (Z.eqb_spec layer 0) as [_|Hne]; [done|].
  destruct (Z.ltb_spec 0 layer) as [Hpos|Hneg]; cbn [andb].
  - destruct (earlier_plain_elements_seq (Z.to_nat layer) (Z.to_nat m))
      as (seq & Hrun & Hlen & Hseq).
    rewrite Z2Nat.id in Hrun by lia.
    assert (Hinner : forall c (s : list Z),
      for_each (range2 0 m) (fun j seq => Ok (seq ++ [c])) s
      = for_each (range2 0 (Z.of_nat (Z.to_nat m))) (fun j seq => Ok (seq ++ [c])) s).
    { intros c s. destruct (Z.le_gt_cases 0 m); [by rewrite Z2Nat.id|].
      by rewrite !range2_empty by lia. }
    erewrite for_each_ext_body; [rewrite Hrun|intros i st; by rewrite Hinner].
    cbn [mbind outcome_bind snd].
    destruct (Z.leb_spec 2 m) as [Hm|Hm].
    + rewrite <- (Z2Nat.id layer) at 1 by lia.
      rewrite (getitem_nat _ _ _ (Hseq (Z.to_nat layer) ltac:(nia))). f_equal.
      rewrite Nat2Z.inj_div, !Z2Nat.id by lia. done.
    + apply getitem_out_of_range. unfold len. rewrite Hlen. nia.
  - rewrite range2_empty by lia. cbn [for_each mbind outcome_bind snd].
    apply getitem_nil.
Qed.

(** X15.  [calculateNumberOfPlainElements(layer, m)] returns [1] for layer
    [0] whatever [m] is; for [layer > 0] and [m >= 2] it returns
    [layer // m + 1], the number of steps [i >= 0] with [i * m <= layer]; in
    every other case the list [seq] has no entry at index [layer] and
    [IndexError] is raised. *)
Theorem earlier_plain_elements (layer m : Z) :
  (layer = 0 -> Earlier.calculateNumberOfPlainElements layer m = Ok 1)
  /\ (0 < layer -> 2 <= m ->
      exists n, Earlier.calculateNumberOfPlainElements layer m = Ok n
                /\ n = layer / m + 1
                /\ (n - 1) * m <= layer < n * m)
  /\ (layer < 0 \/ (layer <> 0 /\ m < 2) ->
      Earlier.calculateNumberOfPlainElements layer m = Raise IndexError).
Proof.
  rewrite calculateNumberOfPlainElements_cases.
  destruct (Z.eqb_spec layer 0) as [H0|H0]; [split; [done|]; split; intros; lia|].
  split; [intros; lia|].
  destruct (Z.ltb_spec 0 layer) as [Hpos|Hneg], (Z.leb_spec 2 m) as [Hm|Hm]; cbn [andb];
    split; try (intros; lia); try done.
  intros _ _. eexists. split; [done|]. split; [done|].
  pose proof (Z.div_mod layer m ltac:(lia)). pose proof (Z.mod_pos_bound layer m ltac:(lia)).
  nia.
Qed.

Lemma earlier_plain_elements_witness :
  Earlier.calculateNumberOfPlainElements 0 (-3) = Ok 1
  /\ (exists n, Earlier.calculateNumberOfPlainElements 7 3 = Ok n
                /\ n = 7 / 3 + 1
                /\ (n - 1) * 3 <= 7 < n * 3)
  /\ Earlier.calculateNumberOfPlainElements 4 1 = Raise IndexError.
Proof.
  destruct (earlier_plain_elements 0 (-3)) as (H0 & _ & _).
  destruct (earlier_plain_elements 7 3) as (_ & H1 & _).
  destruct (earlier_plain_elements 4 1) as (_ & _ & H2).
  split; [apply H0; lia|]. split; [apply H1; lia|apply H2; lia].
Defined.

(** ** The earlier [createPascalSimplex] *)

Lemma math_factorial_nat (k : nat) : Earlier.math_factorial (Z.of_nat k) = Ok (factorial k).
Proof.
  unfold Earlier.math_factorial.
  destruct (Z.ltb_spec (Z.of_nat k) 0) as [?|_]; [lia|]. by rewrite Nat2Z.id.
Qed.

Lemma earlier_denominator (ks : list nat) (p : Z) :
  for_each (Z.of_nat <$> ks)
    (fun k denominator => f ← Earlier.math_factorial k; Ok (denominator * f)) p
  = Ok (factorial_product p ks).
Proof.
  revert p. induction ks as [|k ks IH]; intros p; [done|].
  cbn [fmap list_fmap for_each]. rewrite math_factorial_nat. cbn [mbind outcome_bind].
  apply IH.
Qed.

Lemma earlier_recurse_spec (x : nat) (dim : Z) (n : nat) (ks : list nat) (r fuel : nat) :
  Z.of_nat (length ks) + Z.of_nat n = dim - 1 -> (n < fuel)%nat ->
  Earlier.recurse (Z.of_nat x) dim fuel (Z.of_nat <$> ks) (Z.of_nat r)
  = Ok (ascending x n ks r).
Proof.
  revert ks r fuel. induction n as [|n IH]; intros ks r [|fuel] Hdepth Hfuel; try lia;
    cbn [Earlier.recurse ascending]; unfold len; rewrite length_fmap.
  - destruct (Z.eqb_spec (Z.of_nat (length ks)) (dim - 1)) as [_|?]; [|lia].
    replace ((Z.of_nat <$> ks) ++ [Z.of_nat r]) with (Z.of_nat <$> (ks ++ [r]))
      by by rewrite fmap_app.
    rewrite earlier_denominator, math_factorial_nat. cbn [mbind outcome_bind].
    unfold floordiv. pose proof (factorial_product_pos 1 (ks ++ [r]) ltac:(lia)).
    by destruct (Z.eqb_spec (factorial_product 1 (ks ++ [r])) 0) as [?|_]; [lia|].
  - destruct (Z.eqb_spec (Z.of_nat (length ks)) (dim - 1)) as [?|_]; [lia|].
    replace (Z.of_nat r + 1) with (Z.of_nat (S r)) by lia.
    rewrite range_nat, for_each_map.
    match goal with
    | |- for_each ?xs ?body ?s ≫= _ = _ =>
        destruct (for_each_invariant
          (fun j (sub : list value) =>
             sub = (fun k => ascending x n (ks ++ [k]) (r - k)%nat) <$> seq 0 j) xs body s)
          as (sub & -> & ->); [done| |by rewrite length_seq]
    end.
    intros j k sub [-> Hj]%lookup_seq ->. simpl (0 + j)%nat.
    replace ((Z.of_nat <$> ks) ++ [Z.of_nat j]) with (Z.of_nat <$> (ks ++ [j]))
      by by rewrite fmap_app.
    replace (Z.of_nat r - Z.of_nat j) with (Z.of_nat (r - j)) by lia.
    rewrite IH by (rewrite ?length_app; simpl; lia). cbn [mbind outcome_bind].
    eexists. split; [done|]. by rewrite seq_S, fmap_app.
Qed.

(** The earlier simplex as a function of the layer index. *)
Lemma earlier_createPascalSimplex_spec (layers dimension : Z) :
  1 <= dimension ->
  Earlier.createPascalSimplex layers dimension
  = Ok ((fun x => ascending x (Z.to_nat (dimension - 1)) [] x) <$> seq 0 (Z.to_nat layers)).
Proof.
  intros Hd. unfold Earlier.createPascalSimplex.
  destruct (Z.ltb_spec dimension 1) as [?|_]; [lia|].
  rewrite range_to_nat, for_each_map.
  match goal with
  | |- for_each ?xs ?body ?s = _ =>
      destruct (for_each_invariant
        (fun j (simplex : list value) =>
           simplex = (fun x => ascending x (Z.to_nat (dimension - 1)) [] x) <$> seq 0 j)
        xs body s)
        as (simplex & -> & ->); [done| |by rewrite length_seq]
  end.
  intros j x simplex [-> Hj]%lookup_seq ->. simpl (0 + j)%nat.
  unfold Earlier.generate_layer. destruct (Z.eqb_spec dimension 0) as [?|_]; [lia|].
  rewrite (earlier_recurse_spec j dimension (Z.to_nat (dimension - 1)) [] j) by (simpl; lia).
  cbn [mbind outcome_bind]. eexists. split; [done|]. by rewrite seq_S, fmap_app.
Qed.

(** The ascending structure is the mirror image of the descending one. *)
Lemma rev_fmap {A B} (f : A -> B) (l : list A) : rev (f <$> l) = f <$> rev l.
Proof. symmetry. apply map_rev. Qed.

Lemma ascending_S (x n : nat) (ks : list nat) (r : nat) :
  ascending x (S n) ks r
  = VList ((fun k => ascending x n (ks ++ [k]) (r - k)%nat) <$> seq 0 (S r)).
Proof. done. Qed.

Lemma content_S (x n r : nat) (fp : Z) :
  content x (S n) r fp
  = (fun k => VList (content x n (r - k) (fp * factorial k))) <$> rev (seq 0 (S r)).
Proof. done. Qed.

Lemma ascending_mirror (x n : nat) (ks : list nat) (r : nat) :
  ascending x (S n) ks r = mirror (VList (content x n r (factorial_product 1 ks))).
Proof.
  revert ks r. induction n as [|n IH]; intros ks r; rewrite mirror_list, ascending_S.
  - cbn [content]. f_equal.
    rewrite <- list_fmap_compose, rev_fmap, rev_involutive.
    apply list_fmap_ext. intros _ k _. cbn [compose ascending mirror]. do 2 f_equal.
    by rewrite !factorial_product_app.
  - rewrite content_S. f_equal.
    rewrite <- list_fmap_compose, rev_fmap, rev_involutive.
    apply list_fmap_ext. intros _ k _. cbn [compose]. rewrite IH. do 3 f_equal.
    by rewrite factorial_product_app.
Qed.

(** X16.  The earlier [createPascalSimplex] raises [ValueError] for
    [dimension < 1]; for [dimension >= 1] it returns the simplex of the later
    notebook with every nesting level reversed: the two versions differ only
    in listing the parts in ascending or in descending order. *)
Theorem earlier_simplex_is_mirror (layers dimension : Z) :
  (dimension < 1 ->
   Earlier.createPascalSimplex layers dimension
   = Raise (ValueError "The dimension of a Pascal Simplex must be at least 1."))
  /\ (1 <= dimension ->
      exists simplex,
        createPascalSimplex layers dimension = Ok simplex
        /\ Earlier.createPascalSimplex layers dimension = Ok (mirror <$> simplex)).
Proof.
  split.
  - intros Hd. unfold Earlier.createPascalSimplex.
    by destruct (Z.ltb_spec dimension 1) as [_|?]; [|lia].
  - intros Hd. eexists. split; [by apply createPascalSimplex_spec|].
    rewrite earlier_createPascalSimplex_spec, <- list_fmap_compose by done. f_equal.
    apply list_fmap_ext. intros _ x _. cbn [compose]. unfold simplex_layer.
    destruct (Z.eqb_spec dimension 1) as [->|Hd1].
    + cbn [mirror]. simpl. f_equal. unfold factorial_product. simpl.
      rewrite Z.mul_1_l. apply Z.div_same. pose proof (factorial_pos x). lia.
    + replace (Z.to_nat (dimension - 1)) with (S (Z.to_nat (dimension - 2))) by lia.
      by rewrite ascending_mirror.
Qed.

Lemma earlier_simplex_is_mirror_witness :
  Earlier.createPascalSimplex 4 0
  = Raise (ValueError "The dimension of a Pascal Simplex must be at least 1.")
  /\ exists simplex,
       createPascalSimplex 4 3 = Ok simplex
       /\ Earlier.createPascalSimplex 4 3 = Ok (mirror <$> simplex).
Proof.
  split; [apply (earlier_simplex_is_mirror 4 0); lia|apply (earlier_simplex_is_mirror 4 3); lia].
Defined.

Lemma ascending_at_multi_index (x n : nat) (ks0 ks : list nat) (r : nat) :
  length ks = n -> (sum_list ks <= r)%nat ->
  lookup_path (ascending x n ks0 r) ks
  = Some (VInt (factorial x / factorial_product 1 (ks0 ++ ks ++ [(r - sum_list ks)%nat]))).
Proof.
  revert ks0 ks r. induction n as [|n IH]; intros ks0 [|k ks] r Hlen Hsum; try done.
  - cbn [lookup_path ascending]. simpl. by rewrite Nat.sub_0_r.
  - simpl in Hsum. cbn [lookup_path ascending].
    rewrite list_lookup_fmap, lookup_seq_lt by lia. cbn [fmap option_fmap option_map mbind option_bind].
    rewrite IH by (simpl in Hlen; lia). rewrite <- app_assoc. simpl (0 + k)%nat.
    replace (r - k - sum_list ks)%nat with (r - sum_list (k :: ks))%nat by (simpl; lia).
    done.
Qed.

(** X17.  In the earlier simplex the entry [layer[k_1][k_2]...[k_{d-1}]] of
    layer [x] is the multinomial coefficient [x! / (k_1! * ... * k_d!)] with
    [k_d = x - (k_1 + ... + k_{d-1})], and the division is exact: the parts
    index the lists directly. *)
Theorem earlier_scalars_are_multinomial (layers d : Z) (x : nat) (ks : list nat) :
  1 <= d -> (x < Z.to_nat layers)%nat ->
  length ks = Z.to_nat (d - 1) -> (sum_list ks <= x)%nat ->
  let parts := ks ++ [(x - sum_list ks)%nat] in
  exists simplex layer z,
    Earlier.createPascalSimplex layers d = Ok simplex
    /\ simplex !! x = Some layer
    /\ lookup_path layer ks = Some (VInt z)
    /\ z = factorial x / factorial_product 1 parts
    /\ z * factorial_product 1 parts = factorial x.
Proof.
  intros Hd Hx Hlen Hsum parts. eexists _, _, _.
  split; [by apply earlier_createPascalSimplex_spec|].
  split; [by rewrite list_lookup_fmap, lookup_seq_lt|].
  split; [by apply ascending_at_multi_index|]. split; [done|].
  apply div_exact; [by apply factorial_product_pos|].
  pose proof (factorial_product_divide parts) as Hdiv.
  by replace (sum_list parts) with x in Hdiv by (unfold parts; rewrite sum_list_snoc; lia).
Qed.

Lemma earlier_scalars_are_multinomial_witness :
  (1 <= 3 /\ (4 < Z.to_nat 5)%nat /\ length [1%nat; 2%nat] = Z.to_nat (3 - 1)
   /\ (sum_list [1%nat; 2%nat] <= 4)%nat)
  /\ let parts := [1%nat; 2%nat] ++ [(4 - sum_list [1%nat; 2%nat])%nat] in
     exists simplex layer z,
       Earlier.createPascalSimplex 5 3 = Ok simplex
       /\ simplex !! 4%nat = Some layer
       /\ lookup_path layer [1%nat; 2%nat] = Some (VInt z)
       /\ z = factorial 4 / factorial_product 1 parts
       /\ z * factorial_product 1 parts = factorial 4.
Proof.
  split; [repeat split; simpl; lia|].
  apply (earlier_scalars_are_multinomial 5 3 4 [1%nat; 2%nat]); simpl; lia.
Defined.

(** ** The closed form of the earlier hyperplane sums *)

Lemma earlier_hterm_beyond c m L i : (L - i * m < i)%nat -> earlier_hterm c m L i = 0.
Proof. intros Hi. unfold earlier_hterm. by rewrite choose_gt. Qed.

Lemma earlier_hterm_0 c m L : earlier_hterm c m L 0 = c ^ Z.of_nat L.
Proof.
  unfold earlier_hterm. rewrite choose_0_r. simpl (0 * _)%nat. rewrite Nat.sub_0_r. lia.
Qed.

Lemma earlier_hypersum_stable c m L N :
  (S (L / (m + 1)) <= N)%nat -> zsum (earlier_hterm c m L) N = earlier_hypersum c m L.
Proof.
  intros HN. unfold earlier_hypersum.
  assert (Hq : (L < (m + 1) * S (L / (m + 1)))%nat) by (apply Nat.mul_succ_div_gt; lia).
  assert (HqL : (L / (m + 1) <= L)%nat) by (apply Nat.Div0.div_le_upper_bound; nia).
  rewrite (zsum_tail _ (S (L / (m + 1))) N), (zsum_tail _ (S (L / (m + 1))) (S L));
    [done|lia| |lia|]; intros i Hi; apply earlier_hterm_beyond; nia.
Qed.

Lemma earlier_hypersum_initial c m L :
  (L <= m)%nat -> earlier_hypersum c m L = c ^ Z.of_nat L.
Proof.
  intros HL. unfold earlier_hypersum. rewrite zsum_shift, earlier_hterm_0.
  rewrite zsum_zero; [lia|]. intros i _. apply earlier_hterm_beyond. nia.
Qed.

(** Pascal's rule, step by step. *)
Lemma earlier_hterm_succ c m L i :
  (m + 1 <= L)%nat ->
  earlier_hterm c m L (S i)
  = c * earlier_hterm c m (L - 1) (S i) + earlier_hterm c m (L - (m + 1)) i.
Proof.
  intros HL. unfold earlier_hterm.
  destruct (decide (S i * (m + 1) <= L)%nat) as [Hle|Hgt].
  - replace (L - S i * m)%nat with (S (L - 1 - S i * m)) by nia.
    rewrite choose_succ.
    replace (L - (m + 1) - i * m)%nat with (L - 1 - S i * m)%nat by nia.
    replace (L - (m + 1) - i * (m + 1))%nat with (L - S i * (m + 1))%nat by nia.
    destruct (decide (S i * (m + 1) = L)%nat) as [Heq|Hne].
    + rewrite (choose_gt (L - 1 - S i * m) (S i)) by nia. ring.
    + replace (L - S i * (m + 1))%nat with (S (L - 1 - S i * (m + 1))) by nia.
      rewrite pow_succ_nat. ring.
  - rewrite (choose_gt (L - S i * m)), (choose_gt (L - 1 - S i * m)) by nia.
    destruct i as [|i]; [nia|].
    rewrite (choose_gt (L - (m + 1) - S i * m)) by nia. ring.
Qed.

(** The recurrence [x_n = (d - 1) * x_{n-1} + x_{n-(m+1)}]. *)
Lemma earlier_hypersum_recurrence c m L :
  (m + 1 <= L)%nat ->
  earlier_hypersum c m L
  = c * earlier_hypersum c m (L - 1) + earlier_hypersum c m (L - (m + 1)).
Proof.
  intros HL.
  assert (Hdiv : forall L', (S (L' / (m + 1)) <= L' + 1)%nat).
  { intros L'.
    assert (L' / (m + 1) <= L')%nat by (apply Nat.Div0.div_le_upper_bound; nia). lia. }
  rewrite <- (earlier_hypersum_stable c m (L - 1) (S L)),
    <- (earlier_hypersum_stable c m (L - (m + 1)) L);
    [|specialize (Hdiv (L - (m + 1))%nat); lia|specialize (Hdiv (L - 1)%nat); lia].
  unfold earlier_hypersum. rewrite !zsum_shift, !earlier_hterm_0.
  rewrite (zsum_ext _ (fun i => c * earlier_hterm c m (L - 1) (S i)
                                + earlier_hterm c m (L - (m + 1)) i))
    by (intros; by apply earlier_hterm_succ).
  rewrite zsum_add, zsum_scale.
  replace L with (S (L - 1)) at 1 by lia. rewrite pow_succ_nat. ring.
Qed.

(** With [d - 1 = 1] the two closed forms coincide. *)
Lemma earlier_hypersum_dimension_2 m L : earlier_hypersum 1 m L = hypersum 1 m L.
Proof.
  apply zsum_ext. intros i _. unfold earlier_hterm, hterm. by rewrite !Z.pow_1_l by lia.
Qed.

(** ** The earlier [calculateHypersumsInPascalSimplex] *)

(** The element [i] of layer [x] of the earlier simplex sums to
    [choose x i * (dimension - 1) ^ (x - i)]. *)
Lemma ascending_element_sum (x n i : nat) :
  (i <= x)%nat ->
  element_sum (ascending x n [i] (x - i))
  = choose x i * (Z.of_nat n + 1) ^ Z.of_nat (x - i).
Proof.
  intros Hi. pose proof (factorial_pos (x - i)). pose proof (factorial_pos i).
  pose proof (choose_factorial x i Hi) as Hc.
  destruct n as [|n].
  - cbn [ascending element_sum]. change (Z.of_nat 0 + 1) with 1.
    rewrite Z.pow_1_l, Z.mul_1_r by lia.
    unfold factorial_product. simpl. rewrite <- Hc.
    replace (1 * factorial i * factorial (x - i)) with (factorial i * factorial (x - i))
      by ring.
    apply Z.div_mul. nia.
  - rewrite ascending_mirror, element_sum_mirror.
    change (element_sum (VList ?l)) with (calculate_sum_nested_list l).
    rewrite (content_sum x n (x - i) _ (choose x i)).
    + do 2 f_equal. lia.
    + unfold factorial_product; simpl; lia.
    + unfold factorial_product. simpl. rewrite <- Hc. ring.
Qed.

Lemma earlier_elements (j : nat) (m : Z) :
  1 <= m ->
  Earlier.calculateNumberOfPlainElements (Z.of_nat j) (m + 1)
  = Ok (Z.of_nat (S (j / (Z.to_nat m + 1)))).
Proof.
  intros Hm. rewrite calculateNumberOfPlainElements_cases.
  destruct (Z.eqb_spec (Z.of_nat j) 0) as [H0|H0].
  - assert (j = 0%nat) as -> by lia. by rewrite Nat.Div0.div_0_l.
  - destruct (Z.ltb_spec 0 (Z.of_nat j)); [|lia].
    destruct (Z.leb_spec 2 (m + 1)); [|lia]. cbn [andb]. f_equal.
    rewrite Nat2Z.inj_succ, Nat2Z.inj_div.
    replace (Z.of_nat (Z.to_nat m + 1)) with (m + 1) by lia. lia.
Qed.

(** The earlier hypersums of a simplex of dimension at least two. *)
Lemma earlier_calculateHypersums_spec (d m : Z) (n : nat) :
  2 <= d -> 1 <= m ->
  Earlier.calculateHypersumsInPascalSimplex
    ((fun x => ascending x (Z.to_nat (d - 1)) [] x) <$> seq 0 n) m
  = Ok (earlier_hypersum (d - 1) (Z.to_nat m) <$> seq 0 n).
Proof.
  intros Hd Hm. unfold Earlier.calculateHypersumsInPascalSimplex, len.
  rewrite length_fmap, length_seq, range_nat, for_each_map.
  set (m' := Z.to_nat m). set (lv := Z.to_nat (d - 2)).
  replace (Z.to_nat (d - 1)) with (S lv) by lia.
  match goal with
  | |- for_each ?xs ?body ?s = _ =>
      destruct (for_each_invariant
        (fun j (res : list Z) => res = earlier_hypersum (d - 1) m' <$> seq 0 j) xs body s)
        as (res & -> & ->); [done| |by rewrite length_seq]
  end.
  intros j L res [-> Hj]%lookup_seq ->. simpl (0 + j)%nat.
  rewrite earlier_elements by done. fold m'. cbn [mbind outcome_bind].
  rewrite range_nat, for_each_map.
  assert (HqL : ((m' + 1) * (j / (m' + 1)) <= j)%nat) by (apply Nat.Div0.mul_div_le).
  match goal with
  | |- context [for_each ?xs ?body ?s] =>
      destruct (for_each_invariant
        (fun t (plainSum : Z) => plainSum = zsum (earlier_hterm (d - 1) m' j) t) xs body s)
        as (plainSum & -> & ->); [done| |]
  end.
  - intros t i plainSum [-> Ht]%lookup_seq ->. simpl (0 + t)%nat.
    replace (Z.of_nat j - Z.of_nat t * m) with (Z.of_nat (j - t * m')) by nia.
    set (idx := (j - t * m')%nat).
    rewrite (getitem_nat _ idx (ascending idx (S lv) [] idx))
      by (rewrite list_lookup_fmap, lookup_seq_lt by lia; done).
    cbn [mbind outcome_bind]. rewrite ascending_S.
    rewrite (getitem_nat _ t (ascending idx lv [t] (idx - t)))
      by (rewrite list_lookup_fmap, lookup_seq_lt by (unfold idx; nia); done).
    cbn [mbind outcome_bind].
    exists (zsum (earlier_hterm (d - 1) m' j) t + element_sum (ascending idx lv [t] (idx - t))).
    split; [by destruct (ascending idx lv [t] (idx - t))|].
    cbn [zsum]. f_equal. rewrite ascending_element_sum by (unfold idx; nia).
    unfold earlier_hterm. fold idx. replace (Z.of_nat lv + 1) with (d - 1) by lia.
    do 3 f_equal. unfold idx. nia.
  - cbn [mbind outcome_bind]. eexists. split; [done|].
    rewrite length_seq, earlier_hypersum_stable by lia. by rewrite seq_S, fmap_app.
Qed.

(** In dimension one every step of every layer sets the sum to [1]. *)
Lemma earlier_calculateHypersums_scalars (m : Z) (n : nat) :
  1 <= m ->
  Earlier.calculateHypersumsInPascalSimplex (replicate n (VInt 1)) m = Ok (replicate n 1).
Proof.
  intros Hm. unfold Earlier.calculateHypersumsInPascalSimplex, len.
  rewrite length_replicate, range_nat, for_each_map.
  set (m' := Z.to_nat m).
  match goal with
  | |- for_each ?xs ?body ?s = _ =>
      destruct (for_each_invariant
        (fun j (res : list Z) => res = replicate j 1) xs body s)
        as (res & -> & ->); [done| |by rewrite length_seq]
  end.
  intros j L res [-> Hj]%lookup_seq ->. simpl (0 + j)%nat.
  rewrite earlier_elements by done. fold m'. cbn [mbind outcome_bind].
  rewrite range_nat, for_each_map.
  assert (HqL : ((m' + 1) * (j / (m' + 1)) <= j)%nat) by (apply Nat.Div0.mul_div_le).
  match goal with
  | |- context [for_each ?xs ?body ?s] =>
      destruct (for_each_invariant
        (fun t (plainSum : Z) => (1 <= t)%nat -> plainSum = 1) xs body s)
        as (plainSum & -> & HplainSum); [intros; lia| |]
  end.
  - intros t i plainSum [-> Ht]%lookup_seq _. simpl (0 + t)%nat.
    replace (Z.of_nat j - Z.of_nat t * m) with (Z.of_nat (j - t * m')) by nia.
    rewrite (getitem_nat _ (j - t * m') (VInt 1)) by (apply lookup_replicate_2; lia).
    cbn [mbind outcome_bind]. by eexists.
  - rewrite length_seq in HplainSum. rewrite HplainSum by lia.
    cbn [mbind outcome_bind]. eexists. split; [done|].
    by rewrite replicate_S_end.
Qed.

(** ** The earlier [calculateSequence] *)

Lemma earlier_calculateSequence_spec (dimension m k : Z) :
  dimension <> 1 -> 0 <= m ->
  Earlier.calculateSequence dimension m k
  = Ok (earlier_hypersum (dimension - 1) (Z.to_nat m) <$> seq 0 (Z.to_nat k)).
Proof.
  intros Hd Hm. unfold Earlier.calculateSequence.
  destruct (Z.eqb_spec dimension 1) as [?|_]; [done|].
  set (c := dimension - 1). set (m' := Z.to_nat m).
  rewrite range_to_nat, range2_to_nat, !for_each_map.
  set (n1 := Z.to_nat (Z.min k (m + 1))). set (n2 := Z.to_nat (k - (m + 1))).
  match goal with
  | |- for_each ?xs ?body ?s ≫= _ = _ =>
      destruct (for_each_invariant
        (fun j (res : list Z) =>
           (j <= n1)%nat /\ res = earlier_hypersum c m' <$> seq 0 j) xs body s)
        as (res & -> & _ & ->); [split; [lia|done]| |]
  end.
  { intros j i res [-> Hj]%lookup_seq [_ ->]. eexists. split; [done|].
    split; [lia|]. rewrite seq_S, fmap_app. simpl.
    rewrite earlier_hypersum_initial by lia. done. }
  cbn [mbind outcome_bind]. rewrite length_seq, for_each_map.
  match goal with
  | |- for_each ?xs ?body ?s = _ =>
      destruct (for_each_invariant
        (fun j (res : list Z) => res = earlier_hypersum c m' <$> seq 0 (n1 + j)) xs body s)
        as (res & -> & ->); [by rewrite Nat.add_0_r| |]
  end.
  { intros j i res [-> Hj]%lookup_seq ->. simpl (0 + j)%nat.
    assert (Hn1 : n1 = (m' + 1)%nat) by lia.
    replace (m + 1 + Z.of_nat j - 1) with (Z.of_nat (m' + j)) by lia.
    replace (m + 1 + Z.of_nat j - (m + 1)) with (Z.of_nat j) by lia.
    rewrite (getitem_nat _ (m' + j) (earlier_hypersum c m' (m' + j)))
      by (rewrite list_lookup_fmap, lookup_seq_lt by lia; done).
    cbn [mbind outcome_bind].
    rewrite (getitem_nat _ j (earlier_hypersum c m' j))
      by (rewrite list_lookup_fmap, lookup_seq_lt by lia; done).
    cbn [mbind outcome_bind]. eexists. split; [done|].
    replace (n1 + S j)%nat with (S (n1 + j)) by lia.
    rewrite seq_S, fmap_app. simpl. do 3 f_equal.
    rewrite (earlier_hypersum_recurrence c m' (n1 + j)) by lia.
    replace (n1 + j - 1)%nat with (m' + j)%nat by lia.
    replace (n1 + j - (m' + 1))%nat with j by lia. done. }
  rewrite length_seq. do 3 f_equal. lia.
Qed.

(** ** The earlier formula and the earlier hypersums agree *)

Lemma earlier_simplex_dimension_1 (n : nat) :
  (fun x => ascending x (Z.to_nat (1 - 1)) [] x) <$> seq 0 n = replicate n (VInt 1).
Proof.
  rewrite replicate_fmap_seq. apply list_fmap_ext. intros _ x _.
  unfold factorial_product. simpl. f_equal. rewrite Z.mul_1_l. apply Z.div_same.
  pose proof (factorial_pos x). lia.
Qed.

Lemma earlier_formula_matches_hypersums (d m k : Z) :
  1 <= d -> 1 <= m ->
  let term (L : nat) :=
    if d =? 1 then 1 else earlier_hypersum (d - 1) (Z.to_nat m) L in
  exists simplex,
    Earlier.createPascalSimplex k d = Ok simplex
    /\ Earlier.calculateHypersumsInPascalSimplex simplex m = Ok (term <$> seq 0 (Z.to_nat k))
    /\ Earlier.calculateSequence d m k = Ok (term <$> seq 0 (Z.to_nat k)).
Proof.
  intros Hd Hm term. eexists. split; [by apply earlier_createPascalSimplex_spec|].
  unfold term. destruct (Z.eqb_spec d 1) as [->|Hd1].
  - rewrite earlier_simplex_dimension_1, <- replicate_fmap_seq.
    split; [by apply earlier_calculateHypersums_scalars|done].
  - split; [apply earlier_calculateHypersums_spec; lia|].
    apply earlier_calculateSequence_spec; lia.
Qed.

(** X18.  In the earlier notebook, for every dimension [d >= 1], slope
    [m >= 1] and length [k], [calculateSequence(d, m, k)] and
    [calculateHypersumsInPascalSimplex(createPascalSimplex(k, d), m)] return
    the same list: all ones in dimension one, and otherwise entry [L] is the
    sum of [C(L - i*m, i) * (d - 1) ^ (L - i*(m+1))] over the steps [i]
    (the terms with [i * (m + 1) > L] are zero). *)
Theorem earlier_hypersums_closed_form (d m k : Z) :
  1 <= d -> 1 <= m ->
  let closed_form (L : nat) :=
    if d =? 1 then 1
    else zsum (fun i => choose (L - i * Z.to_nat m) i
                        * (d - 1) ^ Z.of_nat (L - i * (Z.to_nat m + 1)))
              (S L) in
  exists simplex,
    Earlier.createPascalSimplex k d = Ok simplex
    /\ Earlier.calculateHypersumsInPascalSimplex simplex m
       = Ok (closed_form <$> seq 0 (Z.to_nat k))
    /\ Earlier.calculateSequence d m k = Ok (closed_form <$> seq 0 (Z.to_nat k)).
Proof.
  intros Hd Hm closed_form. eexists. split; [by apply earlier_createPascalSimplex_spec|].
  unfold closed_form. destruct (Z.eqb_spec d 1) as [->|Hd1].
  - rewrite earlier_simplex_dimension_1, <- replicate_fmap_seq.
    split; [by apply earlier_calculateHypersums_scalars|done].
  - split; [apply earlier_calculateHypersums_spec; lia|].
    apply earlier_calculateSequence_spec; lia.
Qed.

Lemma earlier_hypersums_closed_form_witness :
  (1 <= 3 /\ 1 <= 2)
  /\ let closed_form (L : nat) :=
       if 3 =? 1 then 1
       else zsum (fun i => choose (L - i * Z.to_nat 2) i
                           * (3 - 1) ^ Z.of_nat (L - i * (Z.to_nat 2 + 1)))
                 (S L) in
     exists simplex,
       Earlier.createPascalSimplex 6 3 = Ok simplex
       /\ Earlier.calculateHypersumsInPascalSimplex simplex 2
          = Ok (closed_form <$> seq 0 (Z.to_nat 6))
       /\ Earlier.calculateSequence 3 2 6 = Ok (closed_form <$> seq 0 (Z.to_nat 6)).
Proof.
  split; [lia|]. apply (earlier_hypersums_closed_form 3 2 6); lia.
Defined.

(** X19.  The earlier [validateFormula(maxD, maxM, maxK)] returns [True] and
    prints no mismatch, whatever the bounds are. *)
Theorem earlier_validateFormula_all_bounds (maxD maxM maxK : Z) :
  Earlier.validateFormula maxD maxM maxK = Ok (true, []).
Proof.
  unfold Earlier.validateFormula.
  apply for_each_unchanged. intros d Hd%elem_of_range2.
  apply for_each_unchanged. intros m Hm%elem_of_range2.
  apply for_each_unchanged. intros k Hk%elem_of_range2.
  destruct (earlier_formula_matches_hypersums d m k) as (simplex & Hs & Hh & Hq); [lia..|].
  rewrite Hs. cbn [mbind outcome_bind]. rewrite Hh. cbn [mbind outcome_bind].
  rewrite Hq. cbn [mbind outcome_bind].
  rewrite bool_decide_eq_false_2; [done|]. by intros [].
Qed.

(** ** The two notebooks side by side *)

(** X20.  In dimensions one and two the two notebooks compute the same
    numbers: for a slope [m >= 1] the two versions of [calculateSequence]
    return the same list, and it is the list of the hypersums of either
    notebook on its own simplex.  (From dimension three on the recurrences
    [x_n = (d-1) x_{n-1} + x_{n-(m+1)}] and [x_n = x_{n-1} + (d-1) x_{n-(m+1)}]
    part.) *)
Theorem notebooks_agree_up_to_dimension_2 (d m k : Z) (fuel : nat) :
  1 <= d <= 2 -> 1 <= m -> (Z.to_nat k < fuel)%nat ->
  exists simplex simplex' sequence,
    createPascalSimplex k d = Ok simplex
    /\ Earlier.createPascalSimplex k d = Ok simplex'
    /\ calculateHypersumsInPascalSimplex fuel simplex m = Ok sequence
    /\ Earlier.calculateHypersumsInPascalSimplex simplex' m = Ok sequence
    /\ calculateSequence d m k = Ok sequence
    /\ Earlier.calculateSequence d m k = Ok sequence.
Proof.
  intros Hd Hm Hfuel.
  destruct (earlier_formula_matches_hypersums d m k) as (simplex' & Hs' & Hh' & Hq');
    [lia..|].
  destruct (formula_matches_hypersums d m k fuel) as (simplex & sequence & Hs & Hh & Hq);
    [lia..|].
  exists simplex, simplex', sequence. repeat (split; [done|]).
  assert (Hsame : sequence
    = (fun L => if d =? 1 then 1 else earlier_hypersum (d - 1) (Z.to_nat m) L)
        <$> seq 0 (Z.to_nat k)); [|subst sequence; by repeat split].
  rewrite calculateSequence_spec in Hq by done. injection Hq as <-.
  apply list_fmap_ext. intros _ L _.
  destruct (Z.eqb_spec d 1) as [->|Hd1]; [apply hypersum_dimension_1|].
  replace d with 2 by lia. symmetry. apply earlier_hypersum_dimension_2.
Qed.

Lemma notebooks_agree_up_to_dimension_2_witness :
  (1 <= 2 <= 2 /\ 1 <= 3 /\ (Z.to_nat 9 < 10)%nat)
  /\ exists simplex simplex' sequence,
       createPascalSimplex 9 2 = Ok simplex
       /\ Earlier.createPascalSimplex 9 2 = Ok simplex'
       /\ calculateHypersumsInPascalSimplex 10 simplex 3 = Ok sequence
       /\ Earlier.calculateHypersumsInPascalSimplex simplex' 3 = Ok sequence
       /\ calculateSequence 2 3 9 = Ok sequence
       /\ Earlier.calculateSequence 2 3 9 = Ok sequence.
Proof.
  split; [lia|]. apply (notebooks_agree_up_to_dimension_2 2 3 9 10); lia.
Defined.

(** ** The earlier functions outside their supported slopes *)

(** X21.  The earlier [calculateHypersumsInPascalSimplex] raises
    [IndexError] for every slope [m <= 0] on every simplex of at least two
    layers: [calculateNumberOfPlainElements(1, m + 1)] finds its list too
    short (and layer [0] raises nothing else before). *)
Theorem earlier_hypersums_nonpositive_slope (simplex : list value) (m : Z) :
  m <= 0 -> 2 <= len simplex ->
  Earlier.calculateHypersumsInPascalSimplex simplex m = Raise IndexError.
Proof.
  intros Hm Hlen. unfold Earlier.calculateHypersumsInPascalSimplex.
  destruct simplex as [|v0 [|v1 rest]]; [unfold len in Hlen; simpl in Hlen; lia..|].
  unfold range. rewrite (range2_cons 0), (range2_cons (0 + 1)) by lia.
  cbn [for_each].
  assert (H1 : Earlier.calculateNumberOfPlainElements (0 + 1) (m + 1) = Raise IndexError).
  { rewrite calculateNumberOfPlainElements_cases.
    change (0 + 1 =? 0) with false. change (0 <? 0 + 1) with true. cbn [andb].
    by destruct (Z.leb_spec 2 (m + 1)); [lia|]. }
  assert (H0 : Earlier.calculateNumberOfPlainElements 0 (m + 1) = Ok 1)
    by (by rewrite calculateNumberOfPlainElements_cases).
  rewrite H0, H1. cbn [mbind outcome_bind].
  change (range2 0 1) with [0]. cbn [for_each].
  change (getitem (v0 :: v1 :: rest) (0 - 0 * m)) with (@Ok value v0).
  cbn [mbind outcome_bind].
  destruct v0 as [z|[|[z|l] entries]]; done.
Qed.

Lemma earlier_hypersums_nonpositive_slope_witness :
  (0 <= 0 /\ 2 <= len [VList [VInt 1]; VList [VInt 1; VInt 1]])
  /\ Earlier.calculateHypersumsInPascalSimplex [VList [VInt 1]; VList [VInt 1; VInt 1]] 0
     = Raise IndexError.
Proof.
  split; [by split|].
  apply (earlier_hypersums_nonpositive_slope [VList [VInt 1]; VList [VInt 1; VInt 1]] 0);
    [lia|done].
Defined.

(** X22.  The earlier [calculateSequence] returns [k] ones in dimension one
    whatever the slope is (none for [k <= 0]); in any other dimension a slope
    [m < 0] gives the empty list when [k <= m + 1] and [IndexError] at
    [res[i - 1]] otherwise, and a slope [m >= 0] gives [max(k, 0)] terms that
    start with [(d - 1) ^ i] for [i <= m]. *)
Theorem earlier_calculateSequence_cases (dimension m k : Z) :
  (dimension = 1 ->
   Earlier.calculateSequence dimension m k = Ok (replicate (Z.to_nat k) 1))
  /\ (dimension <> 1 -> m < 0 ->
      Earlier.calculateSequence dimension m k
      = if k <=? m + 1 then Ok [] else Raise IndexError)
  /\ (dimension <> 1 -> 0 <= m ->
      exists res,
        Earlier.calculateSequence dimension m k = Ok res
        /\ len res = Z.max k 0
        /\ forall i, (i <= Z.to_nat m)%nat -> (i < Z.to_nat k)%nat ->
                     res !! i = Some ((dimension - 1) ^ Z.of_nat i)).
Proof.
  split; [by intros ->|]. split.
  - intros Hd Hm. unfold Earlier.calculateSequence.
    destruct (Z.eqb_spec dimension 1) as [?|_]; [done|].
    rewrite range_nonpos by lia. cbn [for_each mbind outcome_bind].
    destruct (Z.leb_spec k (m + 1)) as [Hk|Hk].
    + by rewrite range2_empty.
    + rewrite range2_cons by lia. cbn [for_each].
      by rewrite !getitem_nil.
  - intros Hd Hm. eexists. split; [by apply earlier_calculateSequence_spec|].
    split; [unfold len; rewrite length_fmap, length_seq; lia|].
    intros i Hi Hk. rewrite list_lookup_fmap, lookup_seq_lt by done. simpl.
    by rewrite earlier_hypersum_initial.
Qed.

Lemma earlier_calculateSequence_cases_witness :
  Earlier.calculateSequence 1 (-5) 3 = Ok (replicate (Z.to_nat 3) 1)
  /\ Earlier.calculateSequence 3 (-2) 4 = (if 4 <=? -2 + 1 then Ok [] else Raise IndexError)
  /\ exists res,
       Earlier.calculateSequence 3 2 7 = Ok res
       /\ len res = Z.max 7 0
       /\ forall i, (i <= Z.to_nat 2)%nat -> (i < Z.to_nat 7)%nat ->
                    res !! i = Some ((3 - 1) ^ Z.of_nat i).
Proof.
  destruct (earlier_calculateSequence_cases 1 (-5) 3) as (H1 & _ & _).
  destruct (earlier_calculateSequence_cases 3 (-2) 4) as (_ & H2 & _).
  destruct (earlier_calculateSequence_cases 3 2 7) as (_ & _ & H3).
  split; [by apply H1|]. split; [apply H2; lia|apply H3; lia].
Defined.
